(** * The websocket shell bridge (package [shell])

    A shallow embedding of the session code: the request dispatcher
    [Reader], the stdin forwarder [tx], the transport writer [Writer],
    the output fan-in [respond] and the per-stream byte reader [pipe].

    The Go code talks to the outside through channel sends, calls on the
    child process, calls to the three process factories and the wall clock.
    Here every such action is appended, in program order, to a trace that
    is threaded through the code by a state monad, together with the
    session's child slot [wss.proc]. *)

From Stdlib Require Import String Ascii List ZArith Bool Lia.
Import ListNotations.
Local Open Scope string_scope.

(** ** Constants of the wire protocol *)

Definition FORK   : string := "FORK".
Definition OPEN   : string := "OPEN".
Definition EXEC   : string := "EXEC".
Definition RESIZE : string := "RESIZE".
Definition SIGNAL : string := "SIGNAL".

(** ** Errors

    A Go [error] value is either [nil] (modelled by [None] in an
    [option error]) or a non-nil error.  [io.EOF] is a distinguished
    sentinel that the code compares by identity; every other error is
    known only through its message. *)

Inductive error : Type :=
| io_EOF
| errorString (msg : string).

(** [fmt.Sprint(err)] renders an error through its [Error()] method. *)
Definition Sprint (e : error) : string :=
  match e with
  | io_EOF => "EOF"
  | errorString msg => msg
  end.

Definition is_EOF (e : option error) : bool :=
  match e with
  | Some io_EOF => true
  | _ => false
  end.

(** ** Frames *)

(** A pointer to an int ([*int]) is an optional integer. *)
Definition intptr := option Z.

Record request : Type := {
  Action   : string;
  Argv     : list string;
  Signal   : intptr;
  TermName : string;
  TermCwd  : string;
  TermCols : intptr;
  TermRows : intptr;
  TermUid  : intptr;
  TermGid  : intptr;
  TermEnv  : list (string * string)
}.

Record response : Type := {
  Timestamp : Z;
  Stdin     : string;
  Stdout    : string;
  Stderr    : string;
  Result    : string
}.

(** The zero value of [response], as [var response response] gives it. *)
Definition response_zero : response :=
  {| Timestamp := 0; Stdin := ""; Stdout := ""; Stderr := ""; Result := "" |}.

Definition with_Stdout (r : response) (s : string) : response :=
  {| Timestamp := Timestamp r; Stdin := Stdin r; Stdout := s;
     Stderr := Stderr r; Result := Result r |}.

Definition with_Stderr (r : response) (s : string) : response :=
  {| Timestamp := Timestamp r; Stdin := Stdin r; Stdout := Stdout r;
     Stderr := s; Result := Result r |}.

(** The four composite literals the code writes:
    [response{Timestamp: t, Result: s}] and its siblings. *)
Definition response_Result (t : Z) (s : string) : response :=
  {| Timestamp := t; Stdin := ""; Stdout := ""; Stderr := ""; Result := s |}.
Definition response_Stdin (t : Z) (s : string) : response :=
  {| Timestamp := t; Stdin := s; Stdout := ""; Stderr := ""; Result := "" |}.
Definition response_Stdout (t : Z) (s : string) : response :=
  {| Timestamp := t; Stdin := ""; Stdout := s; Stderr := ""; Result := "" |}.
Definition response_Stderr (t : Z) (s : string) : response :=
  {| Timestamp := t; Stdin := ""; Stdout := ""; Stderr := s; Result := "" |}.

(** ** Streams and processes *)

(** One call of [reader.Read(buffer)] on a one-byte buffer: the count [n],
    the byte left in [buffer[0]] and the error. *)
Record read_result : Type := {
  read_n   : Z;
  read_b   : ascii;
  read_err : option error
}.

(** An [io.Reader] is known by the results of its successive [Read] calls.
    A reader whose script is exhausted blocks forever. *)
Definition io_Reader := list read_result.

(** The [process] interface, by the results of its methods.
    [Stdin_Write] is [Stdin().Write], with [None] for a nil error;
    [Stdout] and [Stderr] may return a nil reader; [Close] returns
    nothing and is only recorded in the trace. *)
Record process : Type := {
  Stdin_Write : string -> option error;
  Stdout_of   : option io_Reader;
  Stderr_of   : option io_Reader;
  Resize      : intptr -> intptr -> option error;
  Wait        : option error;
  Kill        : intptr -> option error
}.

(** ** Observable actions *)

Inductive effect : Type :=
| Send (r : response)                       (* wss.send <- r *)
| Call_CreateTerminal (name file : string) (args : list string)
    (env : list (string * string)) (cwd : string)
    (cols rows uid gid : intptr)
| Call_OpenTerminal (cols rows : intptr)
| Call_CreateCommand (file : string) (args : list string)
| Call_Resize (cols rows : intptr)
| Call_Kill (s : intptr)
| Call_Write (input : string)               (* wss.proc.Stdin().Write *)
| Call_Wait
| Call_Close                                (* wss.proc.Close() *)
| Go_respond                                (* go wss.respond() *)
| Go_pipe (reader : option io_Reader)       (* the goroutine of pipe *)
| Close_chans                               (* the four close() calls *)
| ws_Close.                                 (* wss.ws.Close() *)

(** The frames put on the outbound queue, in order. *)
Fixpoint sent (tr : list effect) : list response :=
  match tr with
  | [] => []
  | Send r :: tr' => r :: sent tr'
  | _ :: tr' => sent tr'
  end.

(** ** The session and the monad that threads it *)

(** [proc] is the child slot [wss.proc]; [ticks] counts the calls of
    [time.Now()] made so far; [trace] is the log of actions. *)
Record WebsocketShell : Type := {
  proc  : option process;
  ticks : nat;
  trace : list effect
}.

Definition Connect : WebsocketShell :=
  {| proc := None; ticks := 0; trace := [] |}.

Definition M (A : Type) : Type := WebsocketShell -> A * WebsocketShell.

Definition ret {A} (a : A) : M A := fun wss => (a, wss).

Definition bind {A B} (m : M A) (k : A -> M B) : M B :=
  fun wss => let (a, wss') := m wss in k a wss'.

Declare Scope shell_scope.
Delimit Scope shell_scope with shell.
Notation "x <- m ;; k" := (bind m (fun x => k))
  (at level 61, m at next level, right associativity) : shell_scope.
Notation "m ;; k" := (bind m (fun _ => k))
  (at level 61, right associativity) : shell_scope.
Local Open Scope shell_scope.

Definition emit (e : effect) : M unit :=
  fun wss => (tt, {| proc := proc wss; ticks := ticks wss;
                     trace := trace wss ++ [e] |}).

Definition get_proc : M (option process) :=
  fun wss => (proc wss, wss).

Definition set_proc (p : option process) : M unit :=
  fun wss => (tt, {| proc := p; ticks := ticks wss; trace := trace wss |}).

(** [strings.Join(elems, sep)]. *)
Definition strings_Join (elems : list string) (sep : string) : string :=
  String.concat sep elems.

(** [file = req.Argv[0]] when [len(req.Argv) > 0]; the zero value
    otherwise. *)
Definition Argv_file (argv : list string) : string :=
  match argv with
  | [] => ""
  | f :: _ => f
  end.

(** [args = req.Argv[1:]] when [len(req.Argv) > 1]; the nil slice
    otherwise. *)
Definition Argv_args (argv : list string) : list string :=
  match argv with
  | _ :: ((_ :: _) as rest) => rest
  | _ => []
  end.

(** [buf.WriteByte(m)] on a [bytes.Buffer] whose content is [buf]. *)
Definition WriteByte (buf : string) (m : ascii) : string :=
  buf ++ String m "".

(** The line feed ['\n']. *)
Definition LF : ascii := ascii_of_nat 10.

(** * Concrete collaborators

    A clock, two children, failing factories and a few requests, on
    which the model is run. *)

(** A clock that starts at 1700000000 and advances one second per
    reading. *)
Definition wall_clock (k : nat) : Z := 1700000000 + Z.of_nat k.

(** A child that accepts every write and exits normally; its stdout is
    a pipe and its stderr handle is nil, as for an opened pty. *)
Definition sh : process :=
  {| Stdin_Write := fun _ => None;
     Stdout_of := Some [];
     Stderr_of := None;
     Resize := fun _ _ => None;
     Wait := None;
     Kill := fun _ => None |}.

(** A child whose stdin is closed and which was killed. *)
Definition killed : process :=
  {| Stdin_Write := fun _ => Some (errorString "write |1: broken pipe");
     Stdout_of := Some [];
     Stderr_of := Some [];
     Resize := fun _ _ => None;
     Wait := Some (errorString "signal: terminated");
     Kill := fun _ => None |}.

(** Factories on a host without ptys and without the executable. *)
Definition no_CreateTerminal
    (name file : string) (args : list string) (env : list (string * string))
    (cwd : string) (cols rows uid gid : intptr) : process + error :=
  inr (errorString "fork/exec: no such file or directory").
Definition no_OpenTerminal (cols rows : intptr) : process + error :=
  inr (errorString "open /dev/ptmx: no such file or directory").
Definition no_CreateCommand (file : string) (args : list string)
  : process + error :=
  inr (errorString "exec: not found").

Definition request_zero : request :=
  {| Action := ""; Argv := []; Signal := None; TermName := "";
     TermCwd := ""; TermCols := None; TermRows := None; TermUid := None;
     TermGid := None; TermEnv := [] |}.

Definition request_of (action : string) (argv : list string) : request :=
  {| Action := action; Argv := argv; Signal := None; TermName := "";
     TermCwd := ""; TermCols := None; TermRows := None; TermUid := None;
     TermGid := None; TermEnv := [] |}.

Definition resize_request : request :=
  {| Action := RESIZE; Argv := []; Signal := None; TermName := "";
     TermCwd := ""; TermCols := Some 80%Z; TermRows := Some 24%Z;
     TermUid := None; TermGid := None; TermEnv := [] |}.

(** A session whose child slot holds [p]. *)
Definition busy (p : process) : WebsocketShell :=
  {| proc := Some p; ticks := 0; trace := [] |}.

(** A factory that finds the executable and returns [sh]. *)
Definition ok_CreateCommand (file : string) (args : list string)
  : process + error :=
  inl sh.

(** One [Read] that returns the byte [b]. *)
Definition read_byte (b : ascii) : read_result :=
  {| read_n := 1; read_b := b; read_err := None |}.

(** The [Read] at the end of a stream. *)
Definition read_EOF : read_result :=
  {| read_n := 0; read_b := zero; read_err := Some io_EOF |}.

(** A child that prints one line on stdout and exits normally; its
    stderr handle is nil. *)
Definition hello : process :=
  {| Stdin_Write := fun _ => None;
     Stdout_of := Some [read_byte "h"; read_byte "i"; read_byte LF; read_EOF];
     Stderr_of := None;
     Resize := fun _ _ => None;
     Wait := None;
     Kill := fun _ => None |}.

Section Shell.

(** The wall clock: the [k]-th call of [time.Now().Unix()] in the session
    returns [clock k]. *)
Variable clock : nat -> Z.

(** The three process factories, which live outside the package. *)
Variable CreateTerminal :
  string -> string -> list string -> list (string * string) -> string ->
  intptr -> intptr -> intptr -> intptr -> process + error.
Variable OpenTerminal : intptr -> intptr -> process + error.
Variable CreateCommand : string -> list string -> process + error.

Definition Now_Unix : M Z :=
  fun wss => (clock (ticks wss),
              {| proc := proc wss; ticks := S (ticks wss);
                 trace := trace wss |}).

(** ** [tx]

    [p] is [wss.proc], which the caller found non-nil. *)

Definition tx (p : process) (input : string) : M (option error) :=
  emit (Call_Write input) ;;
  match Stdin_Write p input with
  | Some err =>
      t <- Now_Unix ;;
      emit (Send (response_Result t "message failed to send")) ;;
      ret (Some err)
  | None =>
      t <- Now_Unix ;;
      emit (Send (response_Stdin t input)) ;;
      ret None
  end.

(** ** [Reader] *)

(** How one pass through the [switch] of the IDLE branch ends: with a
    [continue] statement, or by leaving the [switch] normally. *)
Inductive switch_exit : Type :=
| stmt_continue
| switch_done.

(** The [switch req.Action] taken when [wss.proc == nil]. *)
Definition Reader_idle (req : request) (file : string) (args : list string)
  : M switch_exit :=
  let name := TermName req in
  let cwd := TermCwd req in
  let env := TermEnv req in
  let cols := TermCols req in
  let rows := TermRows req in
  let uid := TermUid req in
  let gid := TermGid req in
  if Action req =? FORK then
    if (length (Argv req) =? 0)%nat then
      t <- Now_Unix ;;
      emit (Send (response_Result t "missing required field 'Argv'")) ;;
      ret stmt_continue
    else
      emit (Call_CreateTerminal name file args env cwd cols rows uid gid) ;;
      match CreateTerminal name file args env cwd cols rows uid gid with
      | inr _ =>
          t <- Now_Unix ;;
          emit (Send (response_Result t "unable to fork pty")) ;;
          ret switch_done
      | inl term =>
          set_proc (Some term) ;;
          ret switch_done
      end
  else if Action req =? OPEN then
    emit (Call_OpenTerminal cols rows) ;;
    match OpenTerminal cols rows with
    | inr _ =>
        t <- Now_Unix ;;
        emit (Send (response_Result t "unable to open pty")) ;;
        ret switch_done
    | inl term =>
        set_proc (Some term) ;;
        ret switch_done
    end
  else if Action req =? EXEC then
    if (length (Argv req) =? 0)%nat then
      t <- Now_Unix ;;
      emit (Send (response_Result t "missing required field 'Argv'")) ;;
      ret stmt_continue
    else
      emit (Call_CreateCommand file args) ;;
      match CreateCommand file args with
      | inr _ =>
          t <- Now_Unix ;;
          emit (Send (response_Result t "unable to run exec")) ;;
          ret switch_done
      | inl cmd =>
          set_proc (Some cmd) ;;
          ret switch_done
      end
  else
    t <- Now_Unix ;;
    emit (Send (response_Result t "no running process")) ;;
    ret stmt_continue.

(** The [switch req.Action] taken when a child is present.  The errors
    of [Resize], [Kill] and [tx] are only logged. *)
Definition Reader_busy (p : process) (req : request) : M unit :=
  if Action req =? RESIZE then
    emit (Call_Resize (TermCols req) (TermRows req))
  else if Action req =? SIGNAL then
    emit (Call_Kill (Signal req))
  else if Action req =? EXEC then
    _ <- tx p (strings_Join (Argv req) " ") ;;
    ret tt
  else
    ret tt.

(** One iteration of the [for] loop of [Reader], for a request that
    [ReadJSON] decoded. *)
Definition Reader_body (req : request) : M unit :=
  if Action req =? "" then
    t <- Now_Unix ;;
    emit (Send (response_Result t "required field 'Action'"))
  else
    let file := Argv_file (Argv req) in
    let args := Argv_args (Argv req) in
    p <- get_proc ;;
    match p with
    | None =>
        ex <- Reader_idle req file args ;;
        match ex with
        | stmt_continue => ret tt
        | switch_done => emit Go_respond
        end
    | Some child => Reader_busy child req
    end.

(** [Reader]: the requests are those [ReadJSON] decodes before its first
    failure; the failure breaks the loop and the transport is closed. *)
Fixpoint Reader (reqs : list request) : M unit :=
  match reqs with
  | [] => emit ws_Close
  | req :: rest => Reader_body req ;; Reader rest
  end.

(** ** [pipe] *)

(** What the goroutine started by [pipe] puts on its two channels. *)
Inductive chan_send : Type :=
| bchan_send (b : ascii)             (* bchan <- buffer[0] *)
| echan_send (e : option error).     (* echan <- err *)

(** The [for] loop of the goroutine: one [Read] per iteration. *)
Fixpoint pipe_loop (reader : io_Reader) : list chan_send :=
  match reader with
  | [] => []
  | r :: reader' =>
      if (read_n r >? 0)%Z then bchan_send (read_b r) :: pipe_loop reader'
      else [echan_send (read_err r)]
  end.

(** The sends of the goroutine of [pipe(reader)], in order, up to its
    [return] (or up to the [Read] that never returns). *)
Definition pipe (reader : option io_Reader) : list chan_send :=
  match reader with
  | None => [echan_send (Some io_EOF)]
  | Some r => pipe_loop r
  end.

(** ** [respond] *)

(** The local variables of [respond] that live across iterations. *)
Record respond_vars : Type := {
  eof       : bool;
  stdoutBuf : string;
  stderrBuf : string
}.

Definition respond_init : respond_vars :=
  {| eof := false; stdoutBuf := ""; stderrBuf := "" |}.

(** The case the [select] takes in one iteration, with the value
    received. *)
Inductive event : Type :=
| stdoutMsg (m : ascii)
| stdoutErr (e : option error)
| stderrMsg (m : ascii)
| stderrErr (e : option error)
| time_After.

(** How one iteration of the [for] loop of [respond] ends. *)
Inductive select_exit : Type :=
| next_iteration (v : respond_vars)
| stmt_return.

(** [buf.Len() > 0]. *)
Definition nonempty (buf : string) : bool := (0 <? String.length buf)%nat.

(** The block guarded by [if eof], which both error cases contain:
    harvest the exit status and report it. *)
Definition respond_exit_status (p : process) : M select_exit :=
  emit Call_Wait ;;
  match Wait p with
  | Some err =>
      t <- Now_Unix ;;
      emit (Send (response_Result t (Sprint err))) ;;
      ret stmt_return
  | None =>
      t <- Now_Unix ;;
      emit (Send (response_Result t "0")) ;;
      ret stmt_return
  end.

(** One iteration of the [for] loop of [respond]: the body of the case
    of the [select] that fired. *)
Definition respond_select (p : process) (v : respond_vars) (ev : event)
  : M select_exit :=
  match ev with
  | stdoutMsg m =>
      let buf := WriteByte (stdoutBuf v) m in
      if Ascii.eqb m LF then
        t <- Now_Unix ;;
        emit (Send (response_Stdout t buf)) ;;
        ret (next_iteration
               {| eof := eof v; stdoutBuf := ""; stderrBuf := stderrBuf v |})
      else
        ret (next_iteration
               {| eof := eof v; stdoutBuf := buf; stderrBuf := stderrBuf v |})
  | stdoutErr e =>
      if is_EOF e then
        buf <- (if nonempty (stdoutBuf v) then
                  t <- Now_Unix ;;
                  emit (Send (response_Stdout t (stdoutBuf v))) ;;
                  ret ""
                else ret (stdoutBuf v)) ;;
        if eof v then respond_exit_status p
        else
          ret (next_iteration
                 {| eof := true; stdoutBuf := buf; stderrBuf := stderrBuf v |})
      else
        t <- Now_Unix ;;
        emit (Send (response_Result t "connection closed unexpectedly")) ;;
        ret stmt_return
  | stderrMsg m =>
      let buf := WriteByte (stderrBuf v) m in
      if Ascii.eqb m LF then
        t <- Now_Unix ;;
        emit (Send (response_Stderr t buf)) ;;
        ret (next_iteration
               {| eof := eof v; stdoutBuf := stdoutBuf v; stderrBuf := "" |})
      else
        ret (next_iteration
               {| eof := eof v; stdoutBuf := stdoutBuf v; stderrBuf := buf |})
  | stderrErr e =>
      if is_EOF e then
        buf <- (if nonempty (stderrBuf v) then
                  t <- Now_Unix ;;
                  emit (Send (response_Stderr t (stderrBuf v))) ;;
                  ret ""
                else ret (stderrBuf v)) ;;
        if eof v then respond_exit_status p
        else
          ret (next_iteration
                 {| eof := true; stdoutBuf := stdoutBuf v; stderrBuf := buf |})
      else
        t <- Now_Unix ;;
        emit (Send (response_Result t "connection closed unexpectedly")) ;;
        ret stmt_return
  | time_After =>
      let response0 := response_zero in
      let submit0 := false in
      let '(response1, outBuf, submit1) :=
        if nonempty (stdoutBuf v)
        then (with_Stdout response0 (stdoutBuf v), "", true)
        else (response0, stdoutBuf v, submit0) in
      let '(response2, errBuf, submit2) :=
        if nonempty (stderrBuf v)
        then (with_Stderr response1 (stderrBuf v), "", true)
        else (response1, stderrBuf v, submit1) in
      (if submit2 then emit (Send response2) else ret tt) ;;
      ret (next_iteration
             {| eof := eof v; stdoutBuf := outBuf; stderrBuf := errBuf |})
  end.

(** How a run of [respond] over a finite sequence of events ends. *)
Inductive respond_exit : Type :=
| returned                          (* [return], deferred teardown done *)
| selecting (v : respond_vars)      (* waiting in [select] for more *)
| panicked.                         (* nil dereference of [wss.proc] *)

(** The [for] loop of [respond], fed the events its [select] receives. *)
Fixpoint respond_loop (p : process) (v : respond_vars) (evs : list event)
  : M (option respond_vars) :=
  match evs with
  | [] => ret (Some v)
  | ev :: evs' =>
      ex <- respond_select p v ev ;;
      match ex with
      | next_iteration v' => respond_loop p v' evs'
      | stmt_return => ret None
      end
  end.

(** The deferred function of [respond].  [Close_chans] records the four
    [close] calls as an action of [respond]; what a [close] does to a
    goroutine of [pipe] that still has a send to make (that send
    panics) is outside this function and is not modelled. *)
Definition respond_deferred : M unit :=
  emit Close_chans ;;
  emit Call_Close ;;
  set_proc None.

(** [respond]: [wss.proc.Stdout()] on a nil [wss.proc] panics before the
    teardown is deferred. *)
Definition respond (evs : list event) : M respond_exit :=
  p <- get_proc ;;
  match p with
  | None => ret panicked
  | Some child =>
      emit (Go_pipe (Stdout_of child)) ;;
      emit (Go_pipe (Stderr_of child)) ;;
      r <- respond_loop child respond_init evs ;;
      match r with
      | Some v => ret (selecting v)
      | None => respond_deferred ;; ret returned
      end
  end.

(** ** [Writer] *)

(** What [Writer] does to the transport. *)
Inductive ws_call : Type :=
| Call_WriteJSON (r : response)      (* wss.ws.WriteJSON(response) *)
| Call_ws_Close.                     (* wss.ws.Close() *)

(** The [for ... range wss.send] loop of [Writer].  [queue] holds the
    frames still to be received from the channel, [k] counts the writes
    made so far, and [WriteJSON k r] is the error of the [k]-th write
    when it carries [r] ([None] for nil).  [closed] tells whether
    [Close] closes the channel behind the last frame; if it does not,
    the loop blocks in the receive.  The result is [true] when the loop
    is left. *)
Fixpoint Writer_loop (WriteJSON : nat -> response -> option error)
    (closed : bool) (k : nat) (queue : list response)
  : list ws_call * bool :=
  match queue with
  | [] => ([], closed)
  | r :: rest =>
      match WriteJSON k r with
      | Some _ => ([Call_WriteJSON r], true)
      | None =>
          let (calls, left) := Writer_loop WriteJSON closed (S k) rest in
          (Call_WriteJSON r :: calls, left)
      end
  end.

(** [Writer]: the loop, then [wss.ws.Close()] once the loop is left. *)
Definition Writer (WriteJSON : nat -> response -> option error)
    (closed : bool) (queue : list response) : list ws_call :=
  let (calls, left) := Writer_loop WriteJSON closed 0 queue in
  if left then (calls ++ [Call_ws_Close])%list else calls.

(** ** Vocabulary of the statements *)

(** The session after [n] more readings of the clock and the actions
    [es]; the child slot is as before. *)
Definition after (wss : WebsocketShell) (n : nat) (es : list effect)
  : WebsocketShell :=
  {| proc := proc wss; ticks := n + ticks wss; trace := trace wss ++ es |}.

(** The frame [tx] enqueues after the write of [input]. *)
Definition tx_frame (p : process) (t : Z) (input : string) : response :=
  match Stdin_Write p input with
  | None => response_Stdin t input
  | Some _ => response_Result t "message failed to send"
  end.

(** A spawn request, received while idle, whose factory returns an
    error: the call made and the fixed message of the action. *)
Inductive spawn_failure (req : request) : effect -> string -> Prop :=
| fork_failure (e : error) :
    Action req = FORK ->
    Argv req <> [] ->
    CreateTerminal (TermName req) (Argv_file (Argv req))
      (Argv_args (Argv req)) (TermEnv req) (TermCwd req) (TermCols req)
      (TermRows req) (TermUid req) (TermGid req) = inr e ->
    spawn_failure req
      (Call_CreateTerminal (TermName req) (Argv_file (Argv req))
         (Argv_args (Argv req)) (TermEnv req) (TermCwd req) (TermCols req)
         (TermRows req) (TermUid req) (TermGid req))
      "unable to fork pty"
| open_failure (e : error) :
    Action req = OPEN ->
    OpenTerminal (TermCols req) (TermRows req) = inr e ->
    spawn_failure req (Call_OpenTerminal (TermCols req) (TermRows req))
      "unable to open pty"
| exec_failure (e : error) :
    Action req = EXEC ->
    Argv req <> [] ->
    CreateCommand (Argv_file (Argv req)) (Argv_args (Argv req)) = inr e ->
    spawn_failure req
      (Call_CreateCommand (Argv_file (Argv req)) (Argv_args (Argv req)))
      "unable to run exec".

(** The two output streams of the child; [respond] treats them alike. *)
Inductive stream : Type := stdout | stderr.

Definition other (s : stream) : stream :=
  match s with stdout => stderr | stderr => stdout end.

(** The event "a byte arrived on stream [s]". *)
Definition byte_on (s : stream) (m : ascii) : event :=
  match s with stdout => stdoutMsg m | stderr => stderrMsg m end.

(** The event "stream [s] reported the error [e]". *)
Definition error_on (s : stream) (e : option error) : event :=
  match s with stdout => stdoutErr e | stderr => stderrErr e end.

Definition EOF_on (s : stream) : event := error_on s (Some io_EOF).

Definition accumulator (s : stream) (v : respond_vars) : string :=
  match s with stdout => stdoutBuf v | stderr => stderrBuf v end.

Definition with_accumulator (s : stream) (v : respond_vars) (buf : string)
  : respond_vars :=
  match s with
  | stdout => {| eof := eof v; stdoutBuf := buf; stderrBuf := stderrBuf v |}
  | stderr => {| eof := eof v; stdoutBuf := stdoutBuf v; stderrBuf := buf |}
  end.

(** The frame that carries [buf] as output of stream [s]. *)
Definition chunk (s : stream) (t : Z) (buf : string) : response :=
  match s with
  | stdout => response_Stdout t buf
  | stderr => response_Stderr t buf
  end.

Definition payload (s : stream) (r : response) : string :=
  match s with stdout => Stdout r | stderr => Stderr r end.

(** The last byte of a string, if it has one. *)
Fixpoint last_byte (s : string) : option ascii :=
  match s with
  | EmptyString => None
  | String c EmptyString => Some c
  | String _ rest => last_byte rest
  end.

Definition ends_with_LF (s : string) : bool :=
  match last_byte s with
  | Some c => Ascii.eqb c LF
  | None => false
  end.

(** A payload that is absent or ends a line. *)
Definition absent_or_line (s : string) : bool :=
  (s =? "") || ends_with_LF s.

(** The actions a computation adds to the trace. *)
Definition emitted {A} (m : M A) (wss : WebsocketShell) : list effect :=
  skipn (length (trace wss)) (trace (snd (m wss))).

(** The payload of the exit frame: the rendering of the error of [Wait],
    or ["0"]. *)
Definition exit_string (p : process) : string :=
  match Wait p with
  | Some e => Sprint e
  | None => "0"
  end.

(** An action of the Responder that is an output frame without a
    [Result]. *)
Definition output_frame (e : effect) : Prop :=
  match e with
  | Send r => Result r = ""
  | _ => False
  end.

(** The two ways an iteration of [respond] ends in [return]: with the
    exit status of the child, or with the report of a broken stream. *)
Inductive return_tail (p : process) : list effect -> Prop :=
| tail_exit (t : Z) :
    return_tail p [Call_Wait; Send (response_Result t (exit_string p))]
| tail_broken (t : Z) :
    return_tail p
      [Send (response_Result t "connection closed unexpectedly")].

(** The flush of the accumulator of stream [s] when [s] reports EOF. *)
Definition drain (s : stream) (v : respond_vars) (wss : WebsocketShell)
  : list effect :=
  if nonempty (accumulator s v)
  then [Send (chunk s (clock (ticks wss)) (accumulator s v))]
  else [].

(** The session when [respond] has returned from the state [w] of its
    loop: the deferred function has run. *)
Definition torn_down (w : WebsocketShell) : WebsocketShell :=
  {| proc := None; ticks := ticks w;
     trace := trace w ++ [Close_chans; Call_Close] |}.

(** Stream [s] was closed in order within [evs]: its EOF was received
    and none of its bytes was received after that. *)
Definition closed_in_order (s : stream) (evs : list event) : Prop :=
  exists a b : list event,
    evs = (a ++ EOF_on s :: b)%list /\ forall m, ~ In (byte_on s m) b.

(** A spawn request, received while idle, whose factory returns the
    child [term]: the call made. *)
Inductive spawn_success (req : request) : effect -> process -> Prop :=
| fork_success (term : process) :
    Action req = FORK ->
    Argv req <> [] ->
    CreateTerminal (TermName req) (Argv_file (Argv req))
      (Argv_args (Argv req)) (TermEnv req) (TermCwd req) (TermCols req)
      (TermRows req) (TermUid req) (TermGid req) = inl term ->
    spawn_success req
      (Call_CreateTerminal (TermName req) (Argv_file (Argv req))
         (Argv_args (Argv req)) (TermEnv req) (TermCwd req) (TermCols req)
         (TermRows req) (TermUid req) (TermGid req))
      term
| open_success (term : process) :
    Action req = OPEN ->
    OpenTerminal (TermCols req) (TermRows req) = inl term ->
    spawn_success req (Call_OpenTerminal (TermCols req) (TermRows req)) term
| exec_success (cmd : process) :
    Action req = EXEC ->
    Argv req <> [] ->
    CreateCommand (Argv_file (Argv req)) (Argv_args (Argv req)) = inl cmd ->
    spawn_success req
      (Call_CreateCommand (Argv_file (Argv req)) (Argv_args (Argv req)))
      cmd.

(** The actions [Reader] can take on behalf of a request while a child
    is present: a frame, or a call on the child. *)
Definition child_action (e : effect) : Prop :=
  match e with
  | Send _ | Call_Resize _ _ | Call_Kill _ | Call_Write _ => True
  | _ => False
  end.

(** The frames [Writer] handed to the transport, in order. *)
Fixpoint written (calls : list ws_call) : list response :=
  match calls with
  | [] => []
  | Call_WriteJSON r :: calls' => r :: written calls'
  | Call_ws_Close :: calls' => written calls'
  end.

(** The sends that put the bytes of [bs] on the byte channel. *)
Fixpoint bytes_sends (bs : string) : list chan_send :=
  match bs with
  | EmptyString => []
  | String b rest => bchan_send b :: bytes_sends rest
  end.

(** The event [respond] receives when the goroutine of stream [s]
    completes the send [c]. *)
Definition event_of (s : stream) (c : chan_send) : event :=
  match c with
  | bchan_send b => byte_on s b
  | echan_send e => error_on s e
  end.

(** Whether [ev] is a receive from one of the channels of stream [s]. *)
Definition on_stream (s : stream) (ev : event) : bool :=
  match s, ev with
  | stdout, (stdoutMsg _ | stdoutErr _) => true
  | stderr, (stderrMsg _ | stderrErr _) => true
  | _, _ => false
  end.

(** The bytes received on stream [s] in the course of [evs]. *)
Fixpoint bytes_on (s : stream) (evs : list event) : string :=
  match evs with
  | [] => ""
  | ev :: evs' =>
      match s, ev with
      | stdout, stdoutMsg m => String m (bytes_on s evs')
      | stderr, stderrMsg m => String m (bytes_on s evs')
      | _, _ => bytes_on s evs'
      end
  end.

(** The errors received in the course of [evs], from either stream. *)
Fixpoint errors_in (evs : list event) : list (option error) :=
  match evs with
  | [] => []
  | (stdoutErr e | stderrErr e) :: evs' => e :: errors_in evs'
  | _ :: evs' => errors_in evs'
  end.

(** The output of stream [s] carried by the frames of a trace, joined in
    the order the frames were sent. *)
Fixpoint output_on (s : stream) (tr : list effect) : string :=
  match tr with
  | [] => ""
  | Send r :: tr' => payload s r ++ output_on s tr'
  | _ :: tr' => output_on s tr'
  end.

(** What is still to come on a stream that is delivered in order:
    [Some bs] when the bytes [bs] and then the EOF are outstanding,
    [None] when the EOF has been received. *)
Definition outstanding := option string.

Definition sends_of (o : outstanding) : list chan_send :=
  match o with
  | Some bs => (bytes_sends bs ++ [echan_send (Some io_EOF)])%list
  | None => []
  end.

Definition bytes_of (o : outstanding) : string :=
  match o with
  | Some bs => bs
  | None => ""
  end.

Definition is_closed (o : outstanding) : bool :=
  match o with
  | Some _ => false
  | None => true
  end.

(** No byte of [s] is a line feed. *)
Fixpoint no_LF (s : string) : bool :=
  match s with
  | EmptyString => true
  | String c rest => negb (Ascii.eqb c LF) && no_LF rest
  end.

(** No byte of [s] but possibly the last one is a line feed. *)
Fixpoint one_line (s : string) : bool :=
  match s with
  | EmptyString => true
  | String c EmptyString => true
  | String c rest => negb (Ascii.eqb c LF) && one_line rest
  end.

(** A frame that carries output and nothing else: at least one of
    [Stdout] and [Stderr] is there, each holds at most one line, and
    neither [Stdin] nor [Result] is set. *)
Definition output_only (r : response) : bool :=
  (Stdin r =? "") && (Result r =? "") &&
  (nonempty (Stdout r) || nonempty (Stderr r)) &&
  one_line (Stdout r) && one_line (Stderr r).

Definition output_only_frame (e : effect) : Prop :=
  match e with
  | Send r => output_only r = true
  | _ => False
  end.

(** How the life of a Responder stands after the errors [errs], given
    the state of its EOF latch. *)
Inductive verdict : Type :=
| still_running
| exited              (* [Wait] called, exit status reported *)
| broken.             (* "connection closed unexpectedly" *)

Fixpoint verdict_of (latch : bool) (errs : list (option error)) : verdict :=
  match errs with
  | [] => still_running
  | e :: rest =>
      if is_EOF e then
        if latch then exited else verdict_of true rest
      else broken
  end.

(** The three shapes of what a Responder adds to the trace behind its
    output frames. *)
Definition lifecycle_tail (p : process) (vd : verdict)
    (tail : list effect) : Prop :=
  match vd with
  | still_running => tail = []
  | exited =>
      exists t, tail = [Call_Wait;
                        Send (response_Result t (exit_string p))]
  | broken =>
      exists t, tail = [Send (response_Result t
                                "connection closed unexpectedly")]
  end.

(** The loop of [respond], started in the session [wss], has come to
    [res] with the verdict [vd]: it has sent output frames and then the
    tail of the verdict, and it has returned unless it is still
    running. *)
Definition loop_stands (p : process) (vd : verdict) (wss : WebsocketShell)
    (res : option respond_vars * WebsocketShell) : Prop :=
  exists (n : nat) (body tail : list effect),
    Forall output_frame body /\
    lifecycle_tail p vd tail /\
    snd res = after wss n (body ++ tail) /\
    (fst res = None <-> vd <> still_running).

(** As [loop_stands], with every frame before the tail an output
    frame that carries output and nothing else. *)
Definition loop_output_only (p : process) (vd : verdict)
    (wss : WebsocketShell)
    (res : option respond_vars * WebsocketShell) : Prop :=
  exists (n : nat) (body tail : list effect),
    Forall output_only_frame body /\
    lifecycle_tail p vd tail /\
    snd res = after wss n (body ++ tail) /\
    (fst res = None <-> vd <> still_running).

(** * Properties of the dispatcher *)

Lemma after_0_nil wss : after wss 0 [] = wss.
Proof.
  destruct wss; unfold after; simpl. now rewrite app_nil_r.
Qed.

Lemma eqb_neq_false (a b : string) : a <> b -> (a =? b) = false.
Proof. intro H. now apply String.eqb_neq. Qed.

Lemma length_eqb_0_false {A} (l : list A) :
  l <> [] -> (length l =? 0)%nat = false.
Proof. destruct l; [congruence|reflexivity]. Qed.

Ltac run_shell :=
  repeat (unfold bind, ret, emit, get_proc, set_proc, Now_Unix, after;
          simpl).

(** C7. A decoded request whose [Action] is empty is answered with the
    frame [Result: "required field 'Action'"], stamped with the clock;
    nothing else happens (the child slot is as before, whether present or
    absent), and [Reader] goes on with the requests that follow. *)
Theorem Reader_empty_Action (req : request) (rest : list request)
    (wss : WebsocketShell) :
  Action req = "" ->
  let frame := response_Result (clock (ticks wss)) "required field 'Action'" in
  Reader_body req wss = (tt, after wss 1 [Send frame]) /\
  proc (after wss 1 [Send frame]) = proc wss /\
  Reader (req :: rest) wss = Reader rest (after wss 1 [Send frame]).
Proof.
  intros HA frame.
  assert (Hbody : Reader_body req wss = (tt, after wss 1 [Send frame])).
  { unfold Reader_body. rewrite HA. reflexivity. }
  split; [exact Hbody|]. split; [reflexivity|].
  simpl. unfold bind at 1. now rewrite Hbody.
Qed.

(** C8. While no child is present, a FORK or EXEC request with an empty
    [Argv] is answered with [Result: "missing required field 'Argv'"];
    that frame is the only action of the iteration, so no factory is
    called and no Responder is started, and the child slot stays empty. *)
Theorem Reader_idle_missing_Argv (req : request) (wss : WebsocketShell) :
  proc wss = None ->
  Action req = FORK \/ Action req = EXEC ->
  Argv req = [] ->
  let frame :=
    response_Result (clock (ticks wss)) "missing required field 'Argv'" in
  Reader_body req wss = (tt, after wss 1 [Send frame]) /\
  proc (after wss 1 [Send frame]) = None.
Proof.
  intros Hp HA Hargv frame. split; [|exact Hp].
  unfold Reader_body, Reader_idle.
  destruct wss as [pr tk tr]; simpl in Hp; subst pr.
  destruct HA as [HA|HA]; rewrite HA, Hargv; reflexivity.
Qed.

(** C9. While no child is present, a request whose action is none of
    FORK, OPEN, EXEC (so RESIZE, SIGNAL and every other action) is
    answered with [Result: "no running process"]; that frame is the only
    action of the iteration: no call reaches a process or a factory and
    no Responder is started.  This is the [default] case of the dispatch
    on the action; the dispatch is reached by every request that passed
    the check of [Action], that is, whose [Action] is not empty. *)
Theorem Reader_idle_no_running_process (req : request)
    (wss : WebsocketShell) :
  proc wss = None ->
  Action req <> FORK -> Action req <> OPEN -> Action req <> EXEC ->
  let frame := response_Result (clock (ticks wss)) "no running process" in
  (forall (file : string) (args : list string),
     Reader_idle req file args wss =
       (stmt_continue, after wss 1 [Send frame])) /\
  (Action req <> "" ->
     Reader_body req wss = (tt, after wss 1 [Send frame])) /\
  proc (after wss 1 [Send frame]) = None.
Proof.
  intros Hp HF HO HE frame.
  assert (Hidle : forall file args,
    Reader_idle req file args wss =
      (stmt_continue, after wss 1 [Send frame])).
  { intros file args. unfold Reader_idle.
    rewrite (eqb_neq_false _ _ HF), (eqb_neq_false _ _ HO),
      (eqb_neq_false _ _ HE). reflexivity. }
  split; [exact Hidle|]. split; [|exact Hp].
  intro H0. unfold Reader_body. rewrite (eqb_neq_false _ _ H0).
  unfold bind at 1, get_proc. rewrite Hp.
  unfold bind. rewrite Hidle. reflexivity.
Qed.

Lemma tx_run (p : process) (input : string) (wss : WebsocketShell) :
  tx p input wss =
  (Stdin_Write p input,
   after wss 1 [Call_Write input;
                Send (tx_frame p (clock (ticks wss)) input)]).
Proof.
  unfold tx, tx_frame. run_shell.
  destruct (Stdin_Write p input); run_shell;
    now rewrite <- app_assoc.
Qed.

(** An EXEC request with a child in the slot, in closed form. *)
Lemma Reader_body_busy_EXEC (p : process) (req : request)
    (wss : WebsocketShell) :
  proc wss = Some p ->
  Action req = EXEC ->
  Reader_body req wss =
    (tt, after wss 1
           [Call_Write (String.concat " " (Argv req));
            Send (tx_frame p (clock (ticks wss))
                    (String.concat " " (Argv req)))]).
Proof.
  intros Hp HA. unfold Reader_body, Reader_busy. rewrite HA. simpl.
  unfold bind at 1, get_proc. rewrite Hp.
  unfold bind, strings_Join. rewrite tx_run. reflexivity.
Qed.

(** C5. While a child is present, an EXEC request makes [Reader] write
    the elements of [Argv] joined by single spaces, and nothing after
    them, to the child's stdin in one [Write]; then exactly one frame is
    enqueued: the echo [Stdin: joined] when the write succeeded, and
    [Result: "message failed to send"] (with an empty [Stdin]) when it
    failed. *)
Theorem Reader_busy_EXEC (p : process) (req : request)
    (wss : WebsocketShell) :
  proc wss = Some p ->
  Action req = EXEC ->
  let input := String.concat " " (Argv req) in
  let t := clock (ticks wss) in
  Reader_body req wss =
    (tt, after wss 1 [Call_Write input; Send (tx_frame p t input)]) /\
  (Stdin_Write p input = None ->
     tx_frame p t input = response_Stdin t input) /\
  (Stdin_Write p input <> None ->
     tx_frame p t input = response_Result t "message failed to send").
Proof.
  intros Hp HA input t. split.
  - exact (Reader_body_busy_EXEC p req wss Hp HA).
  - unfold tx_frame. split; intro H.
    + now rewrite H.
    + destruct (Stdin_Write p input); [reflexivity|congruence].
Qed.

(** C10. While a child is present, an EXEC request with an empty [Argv]
    is not rejected: [Reader] writes the empty string to the child's
    stdin, and when that write succeeds it enqueues the echo frame whose
    [Stdin] is the empty string.  No "missing required field" frame is
    produced on this path. *)
Theorem Reader_busy_EXEC_empty_Argv (p : process) (req : request)
    (wss : WebsocketShell) :
  proc wss = Some p ->
  Action req = EXEC ->
  Argv req = [] ->
  Stdin_Write p "" = None ->
  Reader_body req wss =
    (tt, after wss 1 [Call_Write "";
                      Send (response_Stdin (clock (ticks wss)) "")]).
Proof.
  intros Hp HA Hargv Hw.
  rewrite (Reader_body_busy_EXEC p req wss Hp HA), Hargv.
  simpl. unfold tx_frame. now rewrite Hw.
Qed.

(** C1 (what the code does). While no child is present, a FORK, OPEN or
    EXEC request whose factory returns an error makes [Reader] enqueue
    the fixed error frame and leave the child slot empty, as the claim
    says; but the iteration does not end there: it leaves the [switch]
    and runs [go wss.respond()], so a Responder is started although the
    child slot is empty.  That Responder dereferences the nil
    [wss.proc] and panics. *)
Theorem Reader_spawn_failure_starts_respond (req : request)
    (call : effect) (msg : string) (wss : WebsocketShell) :
  proc wss = None ->
  spawn_failure req call msg ->
  let frame := response_Result (clock (ticks wss)) msg in
  let wss' := after wss 1 [call; Send frame; Go_respond] in
  Reader_body req wss = (tt, wss') /\
  proc wss' = None /\
  forall evs : list event, respond evs wss' = (panicked, wss').
Proof.
  intros Hp Hfail frame wss'.
  assert (Hidle : proc wss' = None) by exact Hp.
  split; [|split; [exact Hidle|]].
  - subst frame wss'. unfold Reader_body, Reader_idle.
    destruct wss as [pr tk tr]; simpl in Hp; subst pr.
    destruct Hfail as [e HA Hargv Hf | e HA Hf | e HA Hargv Hf];
      rewrite HA; cbn [String.eqb Ascii.eqb Bool.eqb FORK OPEN EXEC];
      try rewrite (length_eqb_0_false _ Hargv);
      cbv [bind emit ret Now_Unix set_proc get_proc after];
      cbn [proc ticks trace]; rewrite Hf;
      cbn [proc ticks trace]; now rewrite <- !app_assoc.
  - intro evs. unfold respond, bind, get_proc. now rewrite Hidle.
Qed.

(** * Properties of the Responder *)

Lemma after_after wss n es m fs :
  after (after wss n es) m fs = after wss (m + n) (es ++ fs).
Proof.
  unfold after; simpl. now rewrite Nat.add_assoc, app_assoc.
Qed.

Lemma emitted_after {A} (m : M A) wss a n es :
  m wss = (a, after wss n es) -> emitted m wss = es.
Proof.
  intro H. unfold emitted. rewrite H. simpl.
  rewrite skipn_app, skipn_all, Nat.sub_diag. reflexivity.
Qed.

Lemma last_byte_app (a : string) (c : ascii) :
  last_byte (a ++ String c "") = Some c.
Proof.
  induction a as [|x a IH]; [reflexivity|].
  simpl. rewrite IH. destruct (a ++ String c "") eqn:E; [|reflexivity].
  destruct a; discriminate.
Qed.

Lemma nonempty_false (buf : string) : nonempty buf = false -> buf = "".
Proof. destruct buf; [reflexivity|discriminate]. Qed.

(** One byte on stream [s]: the step, in closed form. *)
Lemma respond_select_byte p v s m wss :
  respond_select p v (byte_on s m) wss =
  if Ascii.eqb m LF
  then (next_iteration (with_accumulator s v ""),
        after wss 1
          [Send (chunk s (clock (ticks wss))
                   (accumulator s v ++ String m ""))])
  else (next_iteration
          (with_accumulator s v (accumulator s v ++ String m "")),
        wss).
Proof.
  destruct s; simpl; unfold WriteByte;
    destruct (Ascii.eqb m LF); reflexivity.
Qed.

(** C4. A byte received on a stream is appended to that stream's
    accumulator and nothing else changes; when (and only when) the byte
    is the line feed, the accumulator with that byte is sent as one
    Stdout (or Stderr) frame and the accumulator is cleared.  So every
    frame of this path has a payload that ends with the line feed, and a
    frame whose Stdout or Stderr payload is non-empty and ends otherwise
    can only come from the periodic flush or from the handling of an
    error event (the EOF drain). *)
Theorem respond_line_framing (p : process) (v : respond_vars)
    (wss : WebsocketShell) :
  (forall (s : stream) (m : ascii),
     let buf := accumulator s v ++ String m "" in
     respond_select p v (byte_on s m) wss =
       (if Ascii.eqb m LF
        then (next_iteration (with_accumulator s v ""),
              after wss 1 [Send (chunk s (clock (ticks wss)) buf)])
        else (next_iteration (with_accumulator s v buf), wss)) /\
     forallb (fun r => ends_with_LF (payload s r) &&
                       (payload (other s) r =? ""))
       (sent (emitted (respond_select p v (byte_on s m)) wss)) = true) /\
  (forall ev : event,
     forallb (fun r => absent_or_line (Stdout r) &&
                       absent_or_line (Stderr r))
       (sent (emitted (respond_select p v ev) wss)) = true \/
     ev = time_After \/
     exists (s : stream) (e : option error), ev = error_on s e).
Proof.
  assert (Hbyte : forall s m,
    forallb (fun r => ends_with_LF (payload s r) &&
                      (payload (other s) r =? ""))
      (sent (emitted (respond_select p v (byte_on s m)) wss)) = true).
  { intros s m.
    destruct (Ascii.eqb m LF) eqn:E.
    - erewrite emitted_after
        by (rewrite respond_select_byte, E; reflexivity).
      apply Ascii.eqb_eq in E. subst m.
      destruct s; simpl; unfold ends_with_LF;
        rewrite last_byte_app; reflexivity.
    - erewrite emitted_after
        by (rewrite respond_select_byte, E, <- (after_0_nil wss) at 1;
            reflexivity).
      reflexivity. }
  split.
  - intros s m buf. split; [apply respond_select_byte|apply Hbyte].
  - intros [m|e|m|e|].
    + left. specialize (Hbyte stdout m). simpl in Hbyte.
      rewrite forallb_forall in *. intros r Hr.
      specialize (Hbyte r Hr). apply andb_prop in Hbyte as [H1 H2].
      unfold absent_or_line. rewrite H1, H2. now rewrite orb_true_r.
    + right; right. now exists stdout, e.
    + left. specialize (Hbyte stderr m). simpl in Hbyte.
      rewrite forallb_forall in *. intros r Hr.
      specialize (Hbyte r Hr). apply andb_prop in Hbyte as [H1 H2].
      unfold absent_or_line. rewrite H1, H2. now rewrite orb_true_r.
    + right; right. now exists stderr, e.
    + right; left. reflexivity.
Qed.

(** C2 (what the code does). The periodic flush builds its frame from
    the zero value of [response] and fills in only [Stdout] and
    [Stderr]: the frame it enqueues has [Timestamp] 0, whatever the wall
    clock says, and the clock is not even read in that iteration. *)
Theorem respond_periodic_flush_Timestamp (p : process) (v : respond_vars)
    (wss : WebsocketShell) :
  nonempty (stdoutBuf v) || nonempty (stderrBuf v) = true ->
  let frame := {| Timestamp := 0; Stdin := ""; Stdout := stdoutBuf v;
                  Stderr := stderrBuf v; Result := "" |} in
  respond_select p v time_After wss =
    (next_iteration {| eof := eof v; stdoutBuf := ""; stderrBuf := "" |},
     after wss 0 [Send frame]) /\
  ticks (snd (respond_select p v time_After wss)) = ticks wss /\
  sent (emitted (respond_select p v time_After) wss) = [frame] /\
  Timestamp frame = 0%Z.
Proof.
  intros H frame.
  assert (Hrun : respond_select p v time_After wss =
    (next_iteration {| eof := eof v; stdoutBuf := ""; stderrBuf := "" |},
     after wss 0 [Send frame])).
  { subst frame. simpl.
    destruct (nonempty (stdoutBuf v)) eqn:Eo;
      destruct (nonempty (stderrBuf v)) eqn:Ee;
      try discriminate; run_shell;
      try rewrite (nonempty_false _ Eo);
      try rewrite (nonempty_false _ Ee); reflexivity. }
  split; [exact Hrun|]. split; [now rewrite Hrun|]. split; [|reflexivity].
  now rewrite (emitted_after _ _ _ _ _ Hrun).
Qed.

(** C6. For a nil reader the goroutine of [pipe] performs exactly one
    send, the error [io.EOF] on the error channel, and returns: no byte
    is ever put on the byte channel, and the value sent is the one
    [respond] recognises as end of file. *)
Theorem pipe_nil_reader :
  pipe None = [echan_send (Some io_EOF)] /\
  (forall b : ascii, ~ In (bchan_send b) (pipe None)) /\
  Forall (fun c => match c with
                   | echan_send e => is_EOF e = true
                   | bchan_send _ => False
                   end) (pipe None).
Proof.
  split; [reflexivity|]. split.
  - intros b [H|[]]. discriminate.
  - repeat constructor.
Qed.

Lemma exit_status_run p wss :
  respond_exit_status p wss =
  (stmt_return,
   after wss 1
     [Call_Wait; Send (response_Result (clock (ticks wss)) (exit_string p))]).
Proof.
  unfold respond_exit_status, exit_string.
  destruct (Wait p); run_shell; now rewrite <- app_assoc.
Qed.

(** EOF on stream [s], in closed form. *)
Lemma respond_select_EOF p v s wss :
  respond_select p v (EOF_on s) wss =
  let wss1 := after wss (length (drain s v wss)) (drain s v wss) in
  if eof v
  then (stmt_return,
        after wss1 1
          [Call_Wait;
           Send (response_Result (clock (ticks wss1)) (exit_string p))])
  else (next_iteration
          {| eof := true;
             stdoutBuf := match s with stdout => "" | stderr => stdoutBuf v end;
             stderrBuf := match s with stdout => stderrBuf v | stderr => "" end |},
        wss1).
Proof.
  destruct s; unfold EOF_on, error_on, respond_select, is_EOF, drain;
    cbn [accumulator];
    [destruct (nonempty (stdoutBuf v)) eqn:E
    |destruct (nonempty (stderrBuf v)) eqn:E];
    destruct (eof v);
    unfold bind at 1; run_shell;
    try rewrite exit_status_run; run_shell;
    try rewrite (nonempty_false _ E);
    rewrite ?app_nil_r, <- ?app_assoc; simpl;
    destruct wss; reflexivity.
Qed.

(** The periodic flush, in closed form. *)
Lemma respond_select_time_After p v wss :
  respond_select p v time_After wss =
  (next_iteration {| eof := eof v; stdoutBuf := ""; stderrBuf := "" |},
   after wss 0
     (if nonempty (stdoutBuf v) || nonempty (stderrBuf v)
      then [Send {| Timestamp := 0; Stdin := ""; Stdout := stdoutBuf v;
                    Stderr := stderrBuf v; Result := "" |}]
      else [])).
Proof.
  simpl.
  destruct (nonempty (stdoutBuf v)) eqn:Eo;
    destruct (nonempty (stderrBuf v)) eqn:Ee;
    run_shell;
    try rewrite (nonempty_false _ Eo);
    try rewrite (nonempty_false _ Ee);
    rewrite ?app_nil_r; destruct wss; reflexivity.
Qed.

(** A stream error other than [io.EOF], in closed form. *)
Lemma respond_select_broken p v s e wss :
  is_EOF e = false ->
  respond_select p v (error_on s e) wss =
  (stmt_return,
   after wss 1
     [Send (response_Result (clock (ticks wss))
              "connection closed unexpectedly")]).
Proof.
  intro H. destruct s; simpl; rewrite H; reflexivity.
Qed.

Lemma drain_output_frames s v wss : Forall output_frame (drain s v wss).
Proof.
  unfold drain. destruct (nonempty (accumulator s v)).
  - constructor; [|constructor]. destruct s; reflexivity.
  - constructor.
Qed.

(** Every iteration either goes on, having sent only output frames, or
    returns, having sent output frames and then one of the two tails. *)
Lemma respond_select_shape p v ev wss :
  exists (n : nat) (body : list effect),
    Forall output_frame body /\
    ((exists v', respond_select p v ev wss =
                 (next_iteration v', after wss n body)) \/
     (exists tail, return_tail p tail /\
                   respond_select p v ev wss =
                   (stmt_return, after wss n (body ++ tail)))).
Proof.
  assert (Hbyte : forall s m, exists n body,
    Forall output_frame body /\
    ((exists v', respond_select p v (byte_on s m) wss =
                 (next_iteration v', after wss n body)) \/
     (exists tail, return_tail p tail /\
                   respond_select p v (byte_on s m) wss =
                   (stmt_return, after wss n (body ++ tail))))).
  { intros s m. rewrite respond_select_byte.
    destruct (Ascii.eqb m LF).
    - eexists _, _. split; [|left; eexists; reflexivity].
      constructor; [|constructor]. destruct s; reflexivity.
    - exists 0, []. split; [constructor|left; eexists].
      now rewrite after_0_nil. }
  assert (Herr : forall s e, exists n body,
    Forall output_frame body /\
    ((exists v', respond_select p v (error_on s e) wss =
                 (next_iteration v', after wss n body)) \/
     (exists tail, return_tail p tail /\
                   respond_select p v (error_on s e) wss =
                   (stmt_return, after wss n (body ++ tail))))).
  { intros s e. destruct (is_EOF e) eqn:E.
    - assert (e = Some io_EOF) as ->
        by (destruct e as [[|]|]; try discriminate; reflexivity).
      change (error_on s (Some io_EOF)) with (EOF_on s).
      rewrite respond_select_EOF. cbv zeta.
      destruct (eof v).
      + rewrite after_after. eexists _, _.
        split; [apply drain_output_frames|].
        right. eexists. split; [apply tail_exit|reflexivity].
      + eexists _, _. split; [apply drain_output_frames|].
        left. eexists. reflexivity.
    - rewrite (respond_select_broken _ _ _ _ _ E).
      exists 1, []. split; [constructor|].
      right. eexists. split; [apply tail_broken|reflexivity]. }
  destruct ev as [m|e|m|e|].
  - apply (Hbyte stdout m).
  - apply (Herr stdout e).
  - apply (Hbyte stderr m).
  - apply (Herr stderr e).
  - rewrite respond_select_time_After. eexists _, _.
    split; [|left; eexists; reflexivity].
    destruct (nonempty (stdoutBuf v) || nonempty (stderrBuf v));
      repeat constructor.
Qed.

(** The same for the whole loop over any sequence of events. *)
Lemma respond_loop_shape p evs : forall v wss,
  exists (n : nat) (body : list effect),
    Forall output_frame body /\
    ((exists v', respond_loop p v evs wss = (Some v', after wss n body)) \/
     (exists tail, return_tail p tail /\
                   respond_loop p v evs wss =
                   (None, after wss n (body ++ tail)))).
Proof.
  induction evs as [|ev evs IH]; intros v wss.
  - exists 0, []. split; [constructor|]. left. exists v.
    simpl. unfold ret. now rewrite after_0_nil.
  - destruct (respond_select_shape p v ev wss)
      as (n & body & Hbody & [[v' Hstep]|(tail & Htail & Hstep)]).
    + destruct (IH v' (after wss n body))
        as (n' & body' & Hbody' & [[v'' Hrest]|(tail & Htail & Hrest)]);
        exists (n' + n), (body ++ body')%list;
        (split; [now apply Forall_app|]).
      * left. exists v''. simpl. unfold bind. rewrite Hstep, Hrest.
        now rewrite after_after.
      * right. exists tail. split; [exact Htail|].
        simpl. unfold bind. rewrite Hstep, Hrest.
        now rewrite after_after, app_assoc.
    + exists n, body. split; [exact Hbody|]. right. exists tail.
      split; [exact Htail|]. simpl. unfold bind. now rewrite Hstep.
Qed.

(** Events that follow the one on which the loop returned are never
    received; events after a running prefix continue from its state. *)
Lemma respond_loop_app p pre rest : forall v wss,
  respond_loop p v (pre ++ rest) wss =
  match respond_loop p v pre wss with
  | (Some v', wss') => respond_loop p v' rest wss'
  | (None, wss') => (None, wss')
  end.
Proof.
  induction pre as [|ev pre IH]; intros v wss; [reflexivity|].
  simpl. unfold bind.
  destruct (respond_select p v ev wss) as [[v'|] wss']; [apply IH|reflexivity].
Qed.

Lemma emitted_trace {A} (m : M A) wss es :
  trace (snd (m wss)) = (trace wss ++ es)%list -> emitted m wss = es.
Proof.
  intro H. unfold emitted. rewrite H.
  rewrite skipn_app, skipn_all, Nat.sub_diag. reflexivity.
Qed.

(** [respond] with a child in the slot, in closed form. *)
Lemma respond_run p evs wss :
  proc wss = Some p ->
  respond evs wss =
  match respond_loop p respond_init evs
          (after wss 0 [Go_pipe (Stdout_of p); Go_pipe (Stderr_of p)]) with
  | (Some v, w) => (selecting v, w)
  | (None, w) => (returned, torn_down w)
  end.
Proof.
  intro Hp. unfold respond, bind at 1, get_proc. rewrite Hp.
  unfold bind at 1 2, emit at 1 2. cbn [proc ticks trace].
  rewrite <- app_assoc. cbn [app]. unfold bind, after. cbn [Nat.add].
  destruct (respond_loop _ _ _ _) as [[v|] w]; [reflexivity|].
  unfold respond_deferred, torn_down. run_shell.
  now rewrite <- app_assoc.
Qed.

(** An empty accumulator stays empty as long as its stream delivers no
    byte. *)
Lemma respond_loop_stays_empty p s evs : forall v wss v' wss',
  accumulator s v = "" ->
  (forall m, ~ In (byte_on s m) evs) ->
  respond_loop p v evs wss = (Some v', wss') ->
  accumulator s v' = "".
Proof.
  induction evs as [|ev evs IH]; intros v wss v' wss' Hacc Hno Hrun.
  - simpl in Hrun. unfold ret in Hrun. now inversion Hrun; subst.
  - simpl in Hrun. unfold bind in Hrun.
    destruct (respond_select p v ev wss) as [[v1|] wss1] eqn:Hstep;
      [|discriminate].
    apply (IH v1 wss1 v' wss'); [|intros m Hm; apply (Hno m); now right|exact Hrun].
    assert (Hne : forall m, ev <> byte_on s m)
      by (intros m ->; apply (Hno m); now left).
    clear IH Hrun Hno.
    destruct ev as [m|e|m|e|].
    + change (stdoutMsg m) with (byte_on stdout m) in *.
      rewrite respond_select_byte in Hstep.
      destruct s; [now elim (Hne m)|].
      destruct (Ascii.eqb m LF); inversion Hstep; subst; exact Hacc.
    + destruct (is_EOF e) eqn:E.
      * assert (e = Some io_EOF) as ->
          by (destruct e as [[|]|]; try discriminate; reflexivity).
        change (stdoutErr (Some io_EOF)) with (EOF_on stdout) in Hstep.
        rewrite respond_select_EOF in Hstep. cbv zeta in Hstep.
        destruct (eof v); [discriminate|].
        inversion Hstep; subst. destruct s; [reflexivity|exact Hacc].
      * change (stdoutErr e) with (error_on stdout e) in Hstep.
        rewrite (respond_select_broken _ _ _ _ _ E) in Hstep. discriminate.
    + change (stderrMsg m) with (byte_on stderr m) in *.
      rewrite respond_select_byte in Hstep.
      destruct s; [|now elim (Hne m)].
      destruct (Ascii.eqb m LF); inversion Hstep; subst; exact Hacc.
    + destruct (is_EOF e) eqn:E.
      * assert (e = Some io_EOF) as ->
          by (destruct e as [[|]|]; try discriminate; reflexivity).
        change (stderrErr (Some io_EOF)) with (EOF_on stderr) in Hstep.
        rewrite respond_select_EOF in Hstep. cbv zeta in Hstep.
        destruct (eof v); [discriminate|].
        inversion Hstep; subst. destruct s; [exact Hacc|reflexivity].
      * change (stderrErr e) with (error_on stderr e) in Hstep.
        rewrite (respond_select_broken _ _ _ _ _ E) in Hstep. discriminate.
    + rewrite respond_select_time_After in Hstep.
      inversion Hstep; subst. destruct s; reflexivity.
Qed.

(** When a stream was closed in order, its accumulator is empty (and the
    latch is set) for as long as the loop keeps running. *)
Lemma respond_loop_closed_in_order p s evs v wss v' wss' :
  closed_in_order s evs ->
  respond_loop p v evs wss = (Some v', wss') ->
  accumulator s v' = "".
Proof.
  intros (a & b & -> & Hno) Hrun.
  rewrite respond_loop_app in Hrun.
  destruct (respond_loop p v a wss) as [[va|] wa]; [|discriminate].
  simpl in Hrun. unfold bind in Hrun.
  rewrite respond_select_EOF in Hrun. cbv zeta in Hrun.
  destruct (eof va); [discriminate|].
  eapply respond_loop_stays_empty; [|exact Hno|exact Hrun].
  destruct s; reflexivity.
Qed.

(** The second EOF, seen from the stream that delivers it.  Let a
    child be in the slot.  When the loop of [respond] is running with
    the EOF latch set and the EOF of stream [s] arrives, the Responder
    sends the accumulator of [s] if it is not empty, then calls [Wait],
    then sends one [Result] frame, whose payload is the rendering of
    the error of [Wait] or ["0"] when there is none, and returns: the
    channels are closed, the child is closed and the slot is cleared,
    and no later event is received.  The accumulator of the other
    stream is empty at that point if that stream was closed in order.
    Over any sequence of events, the actions of a Responder are: the
    two [pipe] goroutines, then output frames without [Result], then,
    if it returns, a single tail (the [Wait] call with the exit frame,
    or the report of a broken stream) directly followed by the
    teardown; so there is at most one exit frame and no frame comes
    after it. *)
Theorem respond_second_EOF (p : process) (wss : WebsocketShell) :
  proc wss = Some p ->
  let started := [Go_pipe (Stdout_of p); Go_pipe (Stderr_of p)] in
  (forall (pre : list event) (s : stream) (post : list event)
          (v : respond_vars) (wss1 : WebsocketShell),
     respond pre wss = (selecting v, wss1) ->
     eof v = true ->
     let flush :=
       if nonempty (accumulator s v)
       then [Send (chunk s (clock (ticks wss1)) (accumulator s v))]
       else [] in
     let exit_frame :=
       response_Result (clock (length flush + ticks wss1))
         (match Wait p with
          | Some e => Sprint e
          | None => "0"
          end) in
     respond (pre ++ EOF_on s :: post) wss =
       (returned,
        {| proc := None;
           ticks := S (length flush + ticks wss1);
           trace := trace wss1 ++ flush ++
                    [Call_Wait; Send exit_frame; Close_chans; Call_Close]
        |}) /\
     (closed_in_order (other s) pre -> accumulator (other s) v = "")) /\
  (forall evs : list event,
     exists body : list effect,
       Forall output_frame body /\
       ((exists v,
           fst (respond evs wss) = selecting v /\
           proc (snd (respond evs wss)) = Some p /\
           emitted (respond evs) wss = (started ++ body)%list) \/
        (exists tail,
           return_tail p tail /\
           fst (respond evs wss) = returned /\
           proc (snd (respond evs wss)) = None /\
           emitted (respond evs) wss =
             (started ++ body ++ tail ++ [Close_chans; Call_Close])%list))).
Proof.
  intros Hp started. split.
  - intros pre s post v wss1 Hpre Heof flush exit_frame.
    rewrite (respond_run p _ _ Hp) in Hpre.
    destruct (respond_loop p respond_init pre _) as [[v0|] w] eqn:Hloop;
      inversion Hpre; subst v0 w; clear Hpre.
    split.
    + rewrite (respond_run p _ _ Hp), respond_loop_app, Hloop.
      cbn [respond_loop]. unfold bind.
      rewrite respond_select_EOF. cbv zeta. rewrite Heof.
      unfold torn_down, after. cbn [proc ticks trace].
      subst exit_frame flush. unfold drain, exit_string.
      destruct (nonempty (accumulator s v));
        cbn [length Nat.add app ret proc ticks trace];
        rewrite <- ?app_assoc; reflexivity.
    + intro Hclosed.
      exact (respond_loop_closed_in_order p _ _ _ _ _ _ Hclosed Hloop).
  - intro evs. rewrite (respond_run p _ _ Hp).
    destruct (respond_loop_shape p evs respond_init
                (after wss 0 [Go_pipe (Stdout_of p); Go_pipe (Stderr_of p)]))
      as (n & body & Hbody & [[v Hrun]|(tail & Htail & Hrun)]);
      exists body; (split; [exact Hbody|]).
    + left. exists v.
      assert (Hr : respond evs wss =
                   (selecting v, after wss (n + 0) (started ++ body)%list))
        by (rewrite (respond_run p _ _ Hp), Hrun, after_after; reflexivity).
      rewrite Hrun. split; [reflexivity|]. split; [exact Hp|].
      exact (emitted_after _ _ _ _ _ Hr).
    + right. exists tail. rewrite Hrun.
      split; [exact Htail|]. split; [reflexivity|]. split; [reflexivity|].
      apply emitted_trace. rewrite (respond_run p _ _ Hp), Hrun.
      unfold torn_down, after, started. cbn [snd trace].
      rewrite <- !app_assoc. reflexivity.
Qed.

(** * More on the dispatcher *)

Ltac shell_step :=
  cbv [bind emit ret Now_Unix set_proc get_proc];
  cbn [proc ticks trace fst snd];
  rewrite <- ?app_assoc; cbn [app].

(** What one iteration of [Reader] does to the session, whatever the
    request: the trace grows by [es]; at most one frame is sent and it
    carries the clock reading made for it; the slot either stays as it
    was or goes from empty to the child a factory returned, and then
    the iteration consists of the factory call and [go wss.respond()]. *)
Lemma Reader_body_step (req : request) (wss : WebsocketShell) :
  exists (slot : option process) (n : nat) (es : list effect),
    Reader_body req wss =
      (tt, {| proc := slot; ticks := n; trace := trace wss ++ es |}) /\
    n = length (sent es) + ticks wss /\
    (length (sent es) <= 1)%nat /\
    map Timestamp (sent es) =
      map clock (seq (ticks wss) (length (sent es))) /\
    (In Go_respond es -> proc wss = None) /\
    (forall p, proc wss = Some p -> Forall child_action es) /\
    (slot = proc wss \/
     exists call term,
       spawn_success req call term /\
       proc wss = None /\ slot = Some term /\ es = [call; Go_respond]).
Proof.
  destruct wss as [pr tk tr]. unfold Reader_body.
  destruct (Action req =? "") eqn:E0.
  { shell_step. eexists _, _, _. split; [reflexivity|].
    repeat split; simpl; auto; try lia.
    - intros [H|[]]; discriminate.
    - intros p _. repeat constructor. }
  unfold bind at 1, get_proc. cbn [proc].
  destruct pr as [child|].
  - (* a child is present *)
    unfold Reader_busy.
    destruct (Action req =? RESIZE);
      [|destruct (Action req =? SIGNAL);
        [|destruct (Action req =? EXEC)]].
    + shell_step. eexists _, _, _. split; [reflexivity|].
      repeat split; simpl; auto; try lia.
      * intros [H|[]]; discriminate.
      * intros p _. repeat constructor.
    + shell_step. eexists _, _, _. split; [reflexivity|].
      repeat split; simpl; auto; try lia.
      * intros [H|[]]; discriminate.
      * intros p _. repeat constructor.
    + unfold tx. destruct (Stdin_Write child _); shell_step;
        (eexists _, _, _; split; [reflexivity|]);
        repeat split; simpl; auto; try lia;
        try (intros [H|[H|[]]]; discriminate);
        try (intros p _; repeat constructor).
    + shell_step. exists (Some child), tk, []. rewrite app_nil_r.
      repeat split; simpl; auto; try lia; try tauto.
  - (* no child *)
    unfold Reader_idle.
    destruct (Action req =? FORK) eqn:EF;
      [|destruct (Action req =? OPEN) eqn:EO;
        [|destruct (Action req =? EXEC) eqn:EE]].
    + destruct (Argv req) as [|a l] eqn:Eargv.
      * shell_step. eexists _, _, _. split; [reflexivity|].
        repeat split; simpl; auto; try lia; discriminate.
      * cbn [length Nat.eqb]. rewrite <- Eargv.
        destruct (CreateTerminal _ _ _ _ _ _ _ _ _) as [term|e] eqn:Ef;
          shell_step; (eexists _, _, _; split; [reflexivity|]);
          repeat split; simpl; auto; try lia; try discriminate.
        right. exists (Call_CreateTerminal (TermName req)
                         (Argv_file (Argv req)) (Argv_args (Argv req))
                         (TermEnv req) (TermCwd req) (TermCols req)
                         (TermRows req) (TermUid req) (TermGid req)), term.
        repeat split.
        apply fork_success;
          [now apply String.eqb_eq|rewrite Eargv; discriminate|exact Ef].
    + destruct (OpenTerminal _ _) as [term|e] eqn:Ef;
        shell_step; (eexists _, _, _; split; [reflexivity|]);
        repeat split; simpl; auto; try lia; try discriminate.
      right. exists (Call_OpenTerminal (TermCols req) (TermRows req)), term.
      repeat split.
      apply open_success; [now apply String.eqb_eq|exact Ef].
    + destruct (Argv req) as [|a l] eqn:Eargv.
      * shell_step. eexists _, _, _. split; [reflexivity|].
        repeat split; simpl; auto; try lia; discriminate.
      * cbn [length Nat.eqb]. rewrite <- Eargv.
        destruct (CreateCommand _ _) as [cmd|e] eqn:Ef;
          shell_step; (eexists _, _, _; split; [reflexivity|]);
          repeat split; simpl; auto; try lia; try discriminate.
        right. exists (Call_CreateCommand (Argv_file (Argv req))
                         (Argv_args (Argv req))), cmd.
        repeat split.
        apply exec_success;
          [now apply String.eqb_eq|rewrite Eargv; discriminate|exact Ef].
    + shell_step. eexists _, _, _. split; [reflexivity|].
      repeat split; simpl; auto; try lia; discriminate.
Qed.

Lemma Argv_split (argv : list string) :
  argv <> [] -> Argv_file argv :: Argv_args argv = argv.
Proof.
  destruct argv as [|f [|a l]]; [congruence|reflexivity|reflexivity].
Qed.

(** A successful spawn, in closed form. *)
Lemma Reader_body_spawn_run (req : request) (call : effect)
    (term : process) (wss : WebsocketShell) :
  proc wss = None ->
  spawn_success req call term ->
  Reader_body req wss =
    (tt, {| proc := Some term; ticks := ticks wss;
            trace := trace wss ++ [call; Go_respond] |}).
Proof.
  intros Hp Hok. unfold Reader_body, Reader_idle.
  destruct wss as [pr tk tr]; simpl in Hp; subst pr.
  destruct Hok as [t HA Hargv Hf | t HA Hf | t HA Hargv Hf];
    rewrite HA; cbn [String.eqb Ascii.eqb Bool.eqb FORK OPEN EXEC];
    try rewrite (length_eqb_0_false _ Hargv);
    cbv [bind emit ret Now_Unix set_proc get_proc after];
    cbn [proc ticks trace]; rewrite Hf;
    cbn [proc ticks trace]; now rewrite <- !app_assoc.
Qed.

(** X1. While no child is present, a FORK, OPEN or EXEC request whose
    factory returns a child makes [Reader] put that child in the slot
    and start a Responder, and nothing else: no frame is sent and the
    clock is not read.  For FORK and EXEC the factory receives [Argv]
    split into its first element and the rest, nothing dropped. *)
Theorem Reader_spawn_success (req : request) (call : effect)
    (term : process) (wss : WebsocketShell) :
  proc wss = None ->
  spawn_success req call term ->
  Reader_body req wss =
    (tt, {| proc := Some term; ticks := ticks wss;
            trace := trace wss ++ [call; Go_respond] |}) /\
  sent [call; Go_respond] = [] /\
  (Argv req <> [] ->
   Argv_file (Argv req) :: Argv_args (Argv req) = Argv req).
Proof.
  intros Hp Hok.
  split; [exact (Reader_body_spawn_run req call term wss Hp Hok)|].
  split; [destruct Hok; reflexivity|apply Argv_split].
Qed.

(** X2. One iteration of [Reader] changes the child slot in one way
    only: from empty to the child a factory just returned, and then the
    iteration consists of that factory call directly followed by
    [go wss.respond()].  A Responder is started only when the slot was
    empty at the start of the iteration, and an iteration sends at most
    one frame. *)
Theorem Reader_slot_discipline (req : request) (wss : WebsocketShell) :
  let wss' := snd (Reader_body req wss) in
  (proc wss' = proc wss \/
   exists call term,
     spawn_success req call term /\
     proc wss = None /\ proc wss' = Some term /\
     emitted (Reader_body req) wss = [call; Go_respond]) /\
  (In Go_respond (emitted (Reader_body req) wss) -> proc wss = None) /\
  (length (sent (emitted (Reader_body req) wss)) <= 1)%nat.
Proof.
  destruct (Reader_body_step req wss)
    as (slot & n & es & Hrun & _ & Hlen & _ & Hgo & _ & Hslot).
  assert (Hem : emitted (Reader_body req) wss = es)
    by (apply emitted_trace; now rewrite Hrun).
  cbv zeta. rewrite Hem, Hrun. cbn [snd proc].
  split; [|split; [exact Hgo|exact Hlen]].
  destruct Hslot as [->|(call & term & Hs & Hp & -> & ->)];
    [now left|right]. now exists call, term.
Qed.

(** With a child in the slot, a whole run of [Reader] acts only on that
    child and on the outbound queue, and closes the transport last. *)
Lemma Reader_busy_run (p : process) (reqs : list request) :
  forall wss, proc wss = Some p ->
  exists (n : nat) (es : list effect),
    Reader reqs wss = (tt, after wss n (es ++ [ws_Close])) /\
    Forall child_action es.
Proof.
  induction reqs as [|req reqs IH]; intros wss Hp.
  - exists 0, []. split; [reflexivity|constructor].
  - destruct (Reader_body_step req wss)
      as (slot & n & es & Hrun & Hn & _ & _ & _ & Hchild & Hslot).
    destruct Hslot as [->|(call & term & _ & Hnone & _)];
      [|congruence].
    destruct (IH (after wss (n - ticks wss) es) Hp)
      as (n' & es' & Hrest & Hes').
    exists (n' + (n - ticks wss)), (es ++ es')%list. split.
    + cbn [Reader]. unfold bind. rewrite Hrun.
      replace {| proc := proc wss; ticks := n; trace := trace wss ++ es |}
        with (after wss (n - ticks wss) es).
      * rewrite Hrest, after_after. now rewrite <- app_assoc.
      * unfold after. f_equal. lia.
    + apply Forall_app. split; [exact (Hchild p Hp)|exact Hes'].
Qed.

(** X3. While a child is present, [Reader] never replaces it: over any
    sequence of requests it calls no factory and starts no Responder,
    the slot holds the same child at the end, every action is a frame
    or a call on that child (Resize, Kill, a stdin write), and the
    transport is closed after the last request. *)
Theorem Reader_keeps_child (p : process) (reqs : list request)
    (wss : WebsocketShell) :
  proc wss = Some p ->
  proc (snd (Reader reqs wss)) = Some p /\
  exists es : list effect,
    emitted (Reader reqs) wss = (es ++ [ws_Close])%list /\
    Forall child_action es.
Proof.
  intro Hp.
  destruct (Reader_busy_run p reqs wss Hp) as (n & es & Hrun & Hes).
  rewrite Hrun. split; [exact Hp|].
  exists es. split; [|exact Hes].
  exact (emitted_after _ _ _ _ _ Hrun).
Qed.

(** X4. Over any sequence of requests, [Reader] sends at most one frame
    per request, reads the clock once for each frame it sends, and the
    [i]-th frame carries the [i]-th of these readings. *)
Theorem Reader_frames_stamped (reqs : list request)
    (wss : WebsocketShell) :
  let frames := sent (emitted (Reader reqs) wss) in
  (length frames <= length reqs)%nat /\
  ticks (snd (Reader reqs wss)) = length frames + ticks wss /\
  map Timestamp frames = map clock (seq (ticks wss) (length frames)).
Proof.
  assert (H : forall reqs wss, exists es,
    trace (snd (Reader reqs wss)) = (trace wss ++ es)%list /\
    (length (sent es) <= length reqs)%nat /\
    ticks (snd (Reader reqs wss)) = length (sent es) + ticks wss /\
    map Timestamp (sent es) =
      map clock (seq (ticks wss) (length (sent es)))).
  { clear reqs wss. induction reqs as [|req reqs IH]; intro wss.
    - exists [ws_Close]. repeat split; simpl; lia.
    - destruct (Reader_body_step req wss)
        as (slot & n & es & Hrun & Hn & Hlen & Hts & _).
      cbn [Reader]. unfold bind. rewrite Hrun.
      destruct (IH {| proc := slot; ticks := n; trace := trace wss ++ es |})
        as (es' & Htr & Hlen' & Htk & Hts').
      cbn [ticks trace] in *.
      exists (es ++ es')%list.
      assert (Hsent : sent (es ++ es') = (sent es ++ sent es')%list).
      { clear. induction es as [|[] es IH]; simpl; congruence. }
      rewrite Hsent, length_app, map_app, seq_app, map_app.
      repeat split.
      + rewrite Htr. now rewrite app_assoc.
      + simpl. lia.
      + rewrite Htk. lia.
      + rewrite Hts, Hts'. subst n.
        now rewrite (Nat.add_comm (ticks wss)). }
  destruct (H reqs wss) as (es & Htr & Hlen & Htk & Hts).
  cbv zeta. rewrite (emitted_trace _ _ _ Htr).
  repeat split; assumption.
Qed.

(** * The Writer *)

Lemma Writer_loop_prefix (WriteJSON : nat -> response -> option error)
    (closed : bool) (queue : list response) : forall k,
  exists (n : nat) (left : bool),
    Writer_loop WriteJSON closed k queue =
      (map Call_WriteJSON (firstn n queue), left) /\
    (n <= length queue)%nat /\
    (forall i r, (S i < n)%nat -> nth_error queue i = Some r ->
                 WriteJSON (k + i) r = None) /\
    ((left = true /\
      exists i r e, n = S i /\ nth_error queue i = Some r /\
                    WriteJSON (k + i) r = Some e) \/
     (n = length queue /\ left = closed /\
      forall i r, nth_error queue i = Some r ->
                  WriteJSON (k + i) r = None)).
Proof.
  induction queue as [|r queue IH]; intro k.
  - exists 0, closed. simpl.
    split; [reflexivity|]. split; [lia|]. split; [intros; lia|].
    right. split; [reflexivity|]. split; [reflexivity|].
    intros [|i] r' H; discriminate H.
  - cbn [Writer_loop]. destruct (WriteJSON k r) as [e|] eqn:Hw.
    + exists 1, true. simpl.
      split; [reflexivity|]. split; [lia|]. split; [intros; lia|].
      left. split; [reflexivity|]. exists 0, r, e.
      split; [reflexivity|]. split; [reflexivity|].
      now rewrite Nat.add_0_r.
    + destruct (IH (S k)) as (n & left & Hrun & Hn & Hok & Hend).
      rewrite Hrun. exists (S n), left. simpl.
      split; [reflexivity|]. split; [lia|]. split.
      * intros [|i] r' Hi Hnth; simpl in Hnth.
        -- inversion Hnth; subst. now rewrite Nat.add_0_r.
        -- rewrite Nat.add_succ_r. apply (Hok i r'); [lia|exact Hnth].
      * destruct Hend as [(Hleft & i & r' & e & Hi & Hnth & Hfail)
                         |(Hlen & Hleft & Hall)].
        -- left. split; [exact Hleft|]. exists (S i), r', e.
           split; [now rewrite Hi|]. split; [exact Hnth|].
           now rewrite Nat.add_succ_r.
        -- right. split; [now rewrite Hlen|]. split; [exact Hleft|].
           intros [|i] r' Hnth; simpl in Hnth.
           ++ inversion Hnth; subst. now rewrite Nat.add_0_r.
           ++ rewrite Nat.add_succ_r. now apply Hall.
Qed.

Lemma written_app (a b : list ws_call) :
  written (a ++ b) = (written a ++ written b)%list.
Proof.
  induction a as [|[r|] a IH]; simpl; congruence.
Qed.

Lemma written_map (frames : list response) :
  written (map Call_WriteJSON frames) = frames.
Proof.
  induction frames as [|r frames IH]; simpl; congruence.
Qed.

(** X5. [Writer] hands the frames of the outbound queue to the
    transport one by one in queue order: what it writes is a prefix of
    the queue, and each write but the last one made has succeeded.  It
    stops in one of two ways.  Either the last write it made failed:
    then no later frame is written and the transport is closed, also
    when the failed write carried the last frame of the queue.  Or
    every frame of the queue was written with success: then the
    transport is closed if the queue was closed, and otherwise the
    Writer waits for more.  The close, when there is one, is its last
    action and happens once. *)
Theorem Writer_in_order (WriteJSON : nat -> response -> option error)
    (closed : bool) (queue : list response) :
  exists (n : nat) (tail : list ws_call),
    Writer WriteJSON closed queue =
      (map Call_WriteJSON (firstn n queue) ++ tail)%list /\
    written (Writer WriteJSON closed queue) = firstn n queue /\
    (n <= length queue)%nat /\
    (forall i r, (S i < n)%nat -> nth_error queue i = Some r ->
                 WriteJSON i r = None) /\
    ((tail = [Call_ws_Close] /\
      exists i r e, n = S i /\ nth_error queue i = Some r /\
                    WriteJSON i r = Some e) \/
     (n = length queue /\
      (forall i r, nth_error queue i = Some r -> WriteJSON i r = None) /\
      tail = if closed then [Call_ws_Close] else [])).
Proof.
  destruct (Writer_loop_prefix WriteJSON closed queue 0)
    as (n & left & Hrun & Hn & Hok & Hend).
  exists n, (if left then [Call_ws_Close] else []).
  unfold Writer. rewrite Hrun.
  split; [destruct left; [reflexivity|now rewrite app_nil_r]|].
  split; [destruct left;
          rewrite ?written_app, written_map; simpl; now rewrite ?app_nil_r|].
  split; [exact Hn|]. split; [exact Hok|].
  destruct Hend as [(-> & Hfail)|(Hlen & -> & Hall)].
  - left. split; [reflexivity|exact Hfail].
  - right. split; [exact Hlen|]. split; [exact Hall|reflexivity].
Qed.

(** * More on the Responder and its stream readers *)

Lemma pipe_loop_reads (reads : list read_result) (r : read_result)
    (rest : io_Reader) :
  Forall (fun x => (read_n x > 0)%Z) reads ->
  (read_n r <= 0)%Z ->
  pipe_loop (reads ++ r :: rest)%list =
  (map (fun x => bchan_send (read_b x)) reads ++
   [echan_send (read_err r)])%list.
Proof.
  intros Hpos Hr. induction Hpos as [|x reads Hx _ IH]; simpl.
  - destruct (read_n r >? 0)%Z eqn:E; [lia|reflexivity].
  - destruct (read_n x >? 0)%Z eqn:E; [now rewrite IH|lia].
Qed.

Lemma pipe_loop_shape (reader : io_Reader) :
  exists (bs : string) (tail : list chan_send),
    pipe_loop reader = (bytes_sends bs ++ tail)%list /\
    (tail = [] \/ exists e, tail = [echan_send e]).
Proof.
  induction reader as [|r reader (bs & tail & IH & Htail)]; simpl.
  - exists "", []. split; [reflexivity|now left].
  - destruct (read_n r >? 0)%Z.
    + exists (String (read_b r) bs), tail. rewrite IH.
      split; [reflexivity|exact Htail].
    + exists "", [echan_send (read_err r)].
      split; [reflexivity|right; now eexists].
Qed.

(** X6. The goroutine of [pipe] forwards one byte for each [Read] that
    returns a positive count, whatever error came with it, and stops at
    the first [Read] that returns no byte: it sends the error of that
    [Read] (nil included) and makes no further [Read].  So on any
    reader its sends are bytes followed by at most one error, and
    nothing follows the error. *)
Theorem pipe_reads_until_no_byte (reads : list read_result)
    (r : read_result) (rest : io_Reader) :
  Forall (fun x => (read_n x > 0)%Z) reads ->
  (read_n r <= 0)%Z ->
  pipe (Some (reads ++ r :: rest)%list) =
    (map (fun x => bchan_send (read_b x)) reads ++
     [echan_send (read_err r)])%list /\
  forall reader : option io_Reader,
    exists (bs : string) (tail : list chan_send),
      pipe reader = (bytes_sends bs ++ tail)%list /\
      (tail = [] \/ exists e, tail = [echan_send e]).
Proof.
  intros Hpos Hr. split; [exact (pipe_loop_reads reads r rest Hpos Hr)|].
  intros [reader|]; [apply pipe_loop_shape|].
  exists "", [echan_send (Some io_EOF)].
  split; [reflexivity|right; now eexists].
Qed.

Lemma string_app_nil_r (a : string) : a ++ "" = a.
Proof. induction a as [|c a IH]; simpl; congruence. Qed.

Lemma string_app_assoc (a b c : string) : (a ++ b) ++ c = a ++ (b ++ c).
Proof. induction a as [|x a IH]; simpl; congruence. Qed.

Lemma output_on_app (s : stream) (a b : list effect) :
  output_on s (a ++ b) = output_on s a ++ output_on s b.
Proof.
  induction a as [|e a IH]; [reflexivity|].
  destruct e; simpl; try assumption.
  now rewrite IH, string_app_assoc.
Qed.

Lemma bytes_on_cons (s : stream) (ev : event) (evs : list event) :
  bytes_on s (ev :: evs) = bytes_on s [ev] ++ bytes_on s evs.
Proof. destruct s, ev; reflexivity. Qed.

Lemma bytes_on_app (s : stream) (a b : list event) :
  bytes_on s (a ++ b) = bytes_on s a ++ bytes_on s b.
Proof.
  induction a as [|ev a IH]; [reflexivity|].
  cbn [app]. rewrite bytes_on_cons, (bytes_on_cons s ev a), IH.
  now rewrite string_app_assoc.
Qed.

Lemma event_cases (ev : event) :
  (exists s m, ev = byte_on s m) \/
  (exists s e, ev = error_on s e) \/
  ev = time_After.
Proof.
  destruct ev as [m|e|m|e|].
  - left. now exists stdout, m.
  - right; left. now exists stdout, e.
  - left. now exists stderr, m.
  - right; left. now exists stderr, e.
  - right; right. reflexivity.
Qed.

Lemma is_EOF_true (e : option error) : is_EOF e = true -> e = Some io_EOF.
Proof. destruct e as [[|]|]; [reflexivity|discriminate|discriminate]. Qed.

Ltac str_norm :=
  cbn [output_on payload chunk accumulator with_accumulator bytes_on
       byte_on error_on EOF_on response_Stdout response_Stderr
       response_Result Stdout Stderr stdoutBuf stderrBuf append app];
  rewrite ?string_app_nil_r, ?string_app_assoc.

(** One iteration neither loses nor invents output of stream [s]: what
    it sends and what it keeps is what it held and what it received,
    unless it returns, when what it held may be left behind. *)
Lemma respond_select_conserves p v ev wss (s : stream) :
  exists (n : nat) (es : list effect),
    (exists v', respond_select p v ev wss =
                  (next_iteration v', after wss n es) /\
                output_on s es ++ accumulator s v' =
                accumulator s v ++ bytes_on s [ev]) \/
    (exists left, respond_select p v ev wss =
                    (stmt_return, after wss n es) /\
                  output_on s es ++ left = accumulator s v /\
                  bytes_on s [ev] = "").
Proof.
  destruct (event_cases ev) as [(s' & m & ->)|[(s' & e & ->)| ->]].
  - rewrite respond_select_byte. destruct (Ascii.eqb m LF).
    + eexists _, _. left. eexists. split; [reflexivity|].
      destruct s, s'; str_norm; reflexivity.
    + exists 0, []. left. eexists. rewrite after_0_nil.
      split; [reflexivity|].
      destruct s, s'; str_norm; reflexivity.
  - destruct (is_EOF e) eqn:E.
    + apply is_EOF_true in E. subst e.
      change (error_on s' (Some io_EOF)) with (EOF_on s').
      rewrite respond_select_EOF. cbv zeta. unfold drain.
      destruct (eof v); destruct (nonempty (accumulator s' v)) eqn:En.
      * rewrite after_after. eexists _, _. right.
        exists (match s, s' with
                | stdout, stdout | stderr, stderr => ""
                | _, _ => accumulator s v
                end).
        split; [reflexivity|].
        destruct s, s'; str_norm; split; reflexivity.
      * rewrite after_after. eexists _, _. right.
        exists (accumulator s v). split; [reflexivity|].
        destruct s, s'; str_norm; split; reflexivity.
      * eexists _, _. left. eexists. split; [reflexivity|].
        destruct s, s'; str_norm; reflexivity.
      * eexists _, _. left. eexists. split; [reflexivity|].
        apply nonempty_false in En.
        destruct s, s'; cbn [accumulator] in En; str_norm;
          rewrite ?En; reflexivity.
    + rewrite (respond_select_broken _ _ _ _ _ E).
      eexists _, _. right. exists (accumulator s v).
      split; [reflexivity|]. destruct s, s'; str_norm; split; reflexivity.
  - rewrite respond_select_time_After. eexists _, _. left. eexists.
    split; [reflexivity|].
    destruct (nonempty (stdoutBuf v)) eqn:Eo;
      destruct (nonempty (stderrBuf v)) eqn:Ee;
      try apply nonempty_false in Eo; try apply nonempty_false in Ee;
      destruct s; cbn [orb]; str_norm; rewrite ?Eo, ?Ee; reflexivity.
Qed.

(** The same over the loop: what was sent for stream [s], followed by
    some rest, is what was held and received; while the loop runs the
    rest is the accumulator. *)
Lemma respond_loop_conserves p (s : stream) evs : forall v wss,
  exists (n : nat) (es : list effect) (rest : string),
    (exists r, respond_loop p v evs wss = (r, after wss n es) /\
               forall v', r = Some v' -> rest = accumulator s v') /\
    output_on s es ++ rest = accumulator s v ++ bytes_on s evs.
Proof.
  induction evs as [|ev evs IH]; intros v wss.
  - exists 0, [], (accumulator s v). split.
    + exists (Some v). rewrite after_0_nil. split; [reflexivity|].
      intros v' H. now inversion H.
    + str_norm. reflexivity.
  - rewrite bytes_on_cons.
    destruct (respond_select_conserves p v ev wss s)
      as (n & es & [(v' & Hstep & Hout)|(left & Hstep & Hout & Hev)]).
    + destruct (IH v' (after wss n es))
        as (n' & es' & rest & (r & Hrun & Hrest) & Hout').
      exists (n' + n), (es ++ es')%list, rest. split.
      * exists r. cbn [respond_loop]. unfold bind.
        rewrite Hstep, Hrun, after_after. split; [reflexivity|exact Hrest].
      * rewrite output_on_app, string_app_assoc, Hout'.
        rewrite <- !string_app_assoc. now rewrite Hout.
    + exists n, es, (left ++ bytes_on s evs). split.
      * exists None. cbn [respond_loop]. unfold bind. rewrite Hstep.
        split; [reflexivity|discriminate].
      * rewrite Hev. cbn [append].
        rewrite <- string_app_assoc. now rewrite Hout.
Qed.

(** X7. The Responder neither invents, duplicates nor reorders output:
    for each stream, the payloads of the frames it has sent, joined in
    order, are a prefix of the bytes it has received on that stream, in
    whatever order the events arrive.  While it is running, what is
    missing from that prefix is exactly the content of the stream's
    accumulator. *)
Theorem respond_output_prefix (p : process) (s : stream)
    (evs : list event) (wss : WebsocketShell) :
  proc wss = Some p ->
  exists rest : string,
    output_on s (emitted (respond evs) wss) ++ rest = bytes_on s evs /\
    forall v, fst (respond evs wss) = selecting v -> rest = accumulator s v.
Proof.
  intro Hp.
  destruct (respond_loop_conserves p s evs respond_init
              (after wss 0 [Go_pipe (Stdout_of p); Go_pipe (Stderr_of p)]))
    as (n & es & rest & (r & Hrun & Hrest) & Hout).
  exists rest. rewrite (respond_run p _ _ Hp), Hrun.
  replace (accumulator s respond_init) with "" in Hout
    by (destruct s; reflexivity).
  cbn [append] in Hout.
  assert (Hem : output_on s (emitted (respond evs) wss) = output_on s es).
  { destruct r as [v|].
    - erewrite emitted_after
        by (rewrite (respond_run p _ _ Hp), Hrun, after_after; reflexivity).
      cbn [app output_on]. reflexivity.
    - erewrite emitted_trace
        by (rewrite (respond_run p _ _ Hp), Hrun; unfold torn_down, after;
            cbn [snd trace]; rewrite <- !app_assoc; reflexivity).
      cbn [app output_on]. rewrite output_on_app. cbn [output_on].
      now rewrite string_app_nil_r. }
  rewrite Hem. split; [exact Hout|].
  destruct r as [v'|]; cbn [fst]; intros v Hv; [|discriminate].
  inversion Hv; subst. now apply Hrest.
Qed.

Lemma sends_head_byte (s : stream) (o : outstanding) (m : ascii)
    (rest : list event) :
  map (event_of s) (sends_of o) = byte_on s m :: rest ->
  exists bs, o = Some (String m bs) /\
             rest = map (event_of s) (sends_of (Some bs)).
Proof.
  destruct o as [[|c bs]|]; simpl; intro H.
  - destruct s; discriminate.
  - exists bs. destruct s; inversion H; subst; split; reflexivity.
  - discriminate.
Qed.

Lemma sends_head_error (s : stream) (o : outstanding) (e : option error)
    (rest : list event) :
  map (event_of s) (sends_of o) = error_on s e :: rest ->
  o = Some "" /\ e = Some io_EOF /\ rest = [].
Proof.
  destruct o as [[|c bs]|]; simpl; intro H.
  - destruct s; inversion H; subst; repeat split.
  - destruct s; discriminate.
  - discriminate.
Qed.

Lemma sends_nil (s : stream) (o : outstanding) :
  [] = map (event_of s) (sends_of o) -> o = None.
Proof.
  destruct o as [[|c bs]|]; simpl; intro H;
    [discriminate|discriminate|reflexivity].
Qed.

(** When both streams are delivered in order and in full, the loop
    returns with the exit status, having sent all that it held and all
    that was outstanding on either stream. *)
Lemma respond_loop_in_order p evs : forall v wss (oo oe : outstanding),
  filter (on_stream stdout) evs = map (event_of stdout) (sends_of oo) ->
  filter (on_stream stderr) evs = map (event_of stderr) (sends_of oe) ->
  is_closed oo && is_closed oe = false ->
  eof v = is_closed oo || is_closed oe ->
  (is_closed oo = true -> stdoutBuf v = "") ->
  (is_closed oe = true -> stderrBuf v = "") ->
  exists (n : nat) (body : list effect) (t : Z),
    respond_loop p v evs wss =
      (None,
       after wss n
         (body ++ [Call_Wait; Send (response_Result t (exit_string p))])) /\
    Forall output_frame body /\
    output_on stdout body = stdoutBuf v ++ bytes_of oo /\
    output_on stderr body = stderrBuf v ++ bytes_of oe.
Proof.
  induction evs as [|ev evs IH];
    intros v wss oo oe Ho He Hopen Hlatch Hoo Hoe.
  - simpl in Ho, He. apply sends_nil in Ho, He. subst. discriminate.
  - cbn [respond_loop]. unfold bind.
    destruct ev as [m|e|m|e|].
    + (* a byte on stdout *)
      cbn [filter on_stream] in Ho, He.
      symmetry in Ho. apply (sends_head_byte stdout) in Ho. destruct Ho as (bs & -> & Ho).
      change (stdoutMsg m) with (byte_on stdout m).
      rewrite respond_select_byte.
      destruct (Ascii.eqb m LF);
        [destruct (IH (with_accumulator stdout v "")
                     (after wss 1
                        [Send (chunk stdout (clock (ticks wss))
                                 (accumulator stdout v ++ String m ""))])
                     (Some bs) oe Ho He Hopen Hlatch
                     (fun H => eq_refl) Hoe)
           as (n & body & t & Hrun & Hbody & Hout & Herr)
        |destruct (IH (with_accumulator stdout v
                         (accumulator stdout v ++ String m ""))
                     wss (Some bs) oe Ho He Hopen Hlatch
                     (fun H => ltac:(discriminate H)) Hoe)
           as (n & body & t & Hrun & Hbody & Hout & Herr)];
        rewrite Hrun.
      * rewrite after_after. eexists _, (_ :: body), t.
        split; [reflexivity|]. split; [constructor; [reflexivity|exact Hbody]|].
        str_norm. rewrite Hout, Herr. str_norm. split; reflexivity.
      * exists n, body, t. split; [reflexivity|]. split; [exact Hbody|].
        rewrite Hout, Herr. str_norm. split; reflexivity.
    + (* an error on stdout *)
      cbn [filter on_stream] in Ho, He.
      symmetry in Ho. apply (sends_head_error stdout) in Ho. destruct Ho as (-> & -> & Ho).
      change (stdoutErr (Some io_EOF)) with (EOF_on stdout).
      rewrite respond_select_EOF. cbv zeta.
      cbn [is_closed orb] in Hlatch.
      assert (Hdrain : Forall output_frame (drain stdout v wss) /\
                       output_on stdout (drain stdout v wss) = stdoutBuf v /\
                       output_on stderr (drain stdout v wss) = "").
      { split; [apply drain_output_frames|]. unfold drain.
        destruct (nonempty (accumulator stdout v)) eqn:En.
        - str_norm. split; reflexivity.
        - apply nonempty_false in En. cbn [accumulator] in En.
          rewrite En. split; reflexivity. }
      destruct Hdrain as (Hd & Hdo & Hde).
      destruct (eof v) eqn:Heof.
      * symmetry in Hlatch. rewrite (Hoe Hlatch).
        destruct oe as [bs|]; [discriminate|].
        rewrite after_after. eexists _, _, _. split; [reflexivity|].
        split; [exact Hd|]. rewrite Hdo, Hde. str_norm. split; reflexivity.
      * destruct (IH {| eof := true; stdoutBuf := ""; stderrBuf := stderrBuf v |}
                    (after wss (length (drain stdout v wss))
                       (drain stdout v wss))
                    None oe Ho He)
          as (n & body & t & Hrun & Hbody & Hout & Herr);
          [cbn [is_closed andb]; now rewrite <- Hlatch
          |reflexivity|reflexivity|exact Hoe|].
        rewrite Hrun, after_after, app_assoc.
        eexists _, _, t. split; [reflexivity|].
        split; [apply Forall_app; split; assumption|].
        rewrite !output_on_app, Hdo, Hde, Hout, Herr. str_norm.
        split; reflexivity.
    + (* a byte on stderr *)
      cbn [filter on_stream] in Ho, He.
      symmetry in He. apply (sends_head_byte stderr) in He. destruct He as (bs & -> & He).
      change (stderrMsg m) with (byte_on stderr m).
      rewrite respond_select_byte.
      assert (Hopen' : is_closed oo && is_closed (Some bs) = false)
        by (cbn [is_closed]; apply andb_false_r).
      destruct (Ascii.eqb m LF);
        [destruct (IH (with_accumulator stderr v "")
                     (after wss 1
                        [Send (chunk stderr (clock (ticks wss))
                                 (accumulator stderr v ++ String m ""))])
                     oo (Some bs) Ho He Hopen' Hlatch
                     Hoo (fun H => eq_refl))
           as (n & body & t & Hrun & Hbody & Hout & Herr)
        |destruct (IH (with_accumulator stderr v
                         (accumulator stderr v ++ String m ""))
                     wss oo (Some bs) Ho He Hopen' Hlatch
                     Hoo (fun H => ltac:(discriminate H)))
           as (n & body & t & Hrun & Hbody & Hout & Herr)];
        rewrite Hrun.
      * rewrite after_after. eexists _, (_ :: body), t.
        split; [reflexivity|]. split; [constructor; [reflexivity|exact Hbody]|].
        str_norm. rewrite Hout, Herr. str_norm. split; reflexivity.
      * exists n, body, t. split; [reflexivity|]. split; [exact Hbody|].
        rewrite Hout, Herr. str_norm. split; reflexivity.
    + (* an error on stderr *)
      cbn [filter on_stream] in Ho, He.
      symmetry in He. apply (sends_head_error stderr) in He. destruct He as (-> & -> & He).
      change (stderrErr (Some io_EOF)) with (EOF_on stderr).
      rewrite respond_select_EOF. cbv zeta.
      cbn [is_closed] in Hlatch. rewrite orb_false_r in Hlatch.
      assert (Hdrain : Forall output_frame (drain stderr v wss) /\
                       output_on stderr (drain stderr v wss) = stderrBuf v /\
                       output_on stdout (drain stderr v wss) = "").
      { split; [apply drain_output_frames|]. unfold drain.
        destruct (nonempty (accumulator stderr v)) eqn:En.
        - str_norm. split; reflexivity.
        - apply nonempty_false in En. cbn [accumulator] in En.
          rewrite En. split; reflexivity. }
      destruct Hdrain as (Hd & Hde & Hdo).
      destruct (eof v) eqn:Heof.
      * symmetry in Hlatch. rewrite (Hoo Hlatch).
        destruct oo as [bs|]; [discriminate|].
        rewrite after_after. eexists _, _, _. split; [reflexivity|].
        split; [exact Hd|]. rewrite Hdo, Hde. str_norm. split; reflexivity.
      * destruct (IH {| eof := true; stdoutBuf := stdoutBuf v; stderrBuf := "" |}
                    (after wss (length (drain stderr v wss))
                       (drain stderr v wss))
                    oo None Ho He)
          as (n & body & t & Hrun & Hbody & Hout & Herr);
          [cbn [is_closed]; rewrite andb_true_r; now rewrite <- Hlatch
          |cbn [is_closed]; now rewrite orb_true_r
          |exact Hoo|reflexivity|].
        rewrite Hrun, after_after, app_assoc.
        eexists _, _, t. split; [reflexivity|].
        split; [apply Forall_app; split; assumption|].
        rewrite !output_on_app, Hdo, Hde, Hout, Herr. str_norm.
        split; reflexivity.
    + (* the timer *)
      cbn [filter on_stream] in Ho, He.
      rewrite respond_select_time_After.
      destruct (IH {| eof := eof v; stdoutBuf := ""; stderrBuf := "" |}
                  (after wss 0
                     (if nonempty (stdoutBuf v) || nonempty (stderrBuf v)
                      then [Send {| Timestamp := 0; Stdin := "";
                                    Stdout := stdoutBuf v;
                                    Stderr := stderrBuf v; Result := "" |}]
                      else []))
                  oo oe Ho He Hopen Hlatch
                  (fun _ => eq_refl) (fun _ => eq_refl))
        as (n & body & t & Hrun & Hbody & Hout & Herr).
      rewrite Hrun, after_after, app_assoc.
      eexists _, _, t. split; [reflexivity|].
      cbn [stdoutBuf stderrBuf append] in Hout, Herr.
      destruct (nonempty (stdoutBuf v)) eqn:Eo;
        destruct (nonempty (stderrBuf v)) eqn:Ee;
        try apply nonempty_false in Eo; try apply nonempty_false in Ee;
        cbn [orb];
        (split; [apply Forall_app; split;
                 [repeat constructor|exact Hbody]|]);
        rewrite !output_on_app, Hout, Herr; str_norm;
        rewrite ?Eo, ?Ee; split; reflexivity.
Qed.

(** X8. A whole lifecycle under in-order delivery.  Let the goroutines
    of [pipe] send the bytes [o] and then EOF for stdout, and the bytes
    [e] and then EOF for stderr, and let [respond] receive the sends of
    each stream in the order they were made, interleaved in any way
    with each other and with timeouts.  Then [respond] returns; the
    Stdout payloads it sent join to exactly [o] and the Stderr payloads
    to exactly [e]; after these output frames come the call of [Wait]
    and the exit frame, then the teardown, which empties the slot. *)
Theorem respond_in_order_lifecycle (p : process) (o e : string)
    (evs : list event) (wss : WebsocketShell) :
  proc wss = Some p ->
  pipe (Stdout_of p) = (bytes_sends o ++ [echan_send (Some io_EOF)])%list ->
  pipe (Stderr_of p) = (bytes_sends e ++ [echan_send (Some io_EOF)])%list ->
  filter (on_stream stdout) evs = map (event_of stdout) (pipe (Stdout_of p)) ->
  filter (on_stream stderr) evs = map (event_of stderr) (pipe (Stderr_of p)) ->
  exists (n : nat) (body : list effect) (t : Z),
    respond evs wss =
      (returned,
       {| proc := None; ticks := n;
          trace := trace wss ++
                   Go_pipe (Stdout_of p) :: Go_pipe (Stderr_of p) ::
                   body ++
                   [Call_Wait; Send (response_Result t (exit_string p));
                    Close_chans; Call_Close] |}) /\
    Forall output_frame body /\
    output_on stdout body = o /\
    output_on stderr body = e.
Proof.
  intros Hp Hpo Hpe Ho He. rewrite Hpo in Ho. rewrite Hpe in He.
  destruct (respond_loop_in_order p evs respond_init
              (after wss 0 [Go_pipe (Stdout_of p); Go_pipe (Stderr_of p)])
              (Some o) (Some e) Ho He eq_refl eq_refl
              (fun H => ltac:(discriminate H))
              (fun H => ltac:(discriminate H)))
    as (n & body & t & Hrun & Hbody & Hout & Herr).
  exists (n + (0 + ticks wss)), body, t.
  rewrite (respond_run p _ _ Hp), Hrun.
  split; [|split; [exact Hbody|split; assumption]].
  unfold torn_down, after. cbn [proc ticks trace].
  rewrite <- !app_assoc. reflexivity.
Qed.

Lemma loop_stands_prepend p vd wss n es res :
  Forall output_frame es ->
  loop_stands p vd (after wss n es) res ->
  loop_stands p vd wss res.
Proof.
  intros Hes (n' & body & tail & Hbody & Htail & Hsnd & Hfst).
  exists (n' + n), (es ++ body)%list, tail.
  split; [now apply Forall_app|]. split; [exact Htail|].
  split; [|exact Hfst].
  rewrite Hsnd, after_after. now rewrite app_assoc.
Qed.

(** How the loop ends depends on the errors received and on nothing
    else. *)
Lemma respond_loop_verdict p evs : forall v wss,
  loop_stands p (verdict_of (eof v) (errors_in evs)) wss
    (respond_loop p v evs wss).
Proof.
  induction evs as [|ev evs IH]; intros v wss.
  - exists 0, [], []. cbn. rewrite after_0_nil.
    split; [constructor|]. split; [reflexivity|]. split; [reflexivity|].
    split; [discriminate|congruence].
  - cbn [respond_loop]. unfold bind.
    destruct (event_cases ev) as [(s & m & ->)|[(s & e & ->)| ->]].
    + replace (errors_in (byte_on s m :: evs)) with (errors_in evs)
        by (destruct s; reflexivity).
      rewrite respond_select_byte. destruct (Ascii.eqb m LF).
      * eapply loop_stands_prepend;
          [|replace (eof v) with (eof (with_accumulator s v ""))
              by (destruct s; reflexivity); apply IH].
        constructor; [destruct s; reflexivity|constructor].
      * replace (eof v)
          with (eof (with_accumulator s v (accumulator s v ++ String m "")))
          by (destruct s; reflexivity).
        apply IH.
    + replace (errors_in (error_on s e :: evs)) with (e :: errors_in evs)
        by (destruct s; reflexivity).
      cbn [verdict_of]. destruct (is_EOF e) eqn:E.
      * apply is_EOF_true in E. subst e.
        change (error_on s (Some io_EOF)) with (EOF_on s).
        rewrite respond_select_EOF. cbv zeta. destruct (eof v).
        -- rewrite after_after. eexists _, _, _.
           split; [apply drain_output_frames|].
           split; [eexists; reflexivity|]. split; [reflexivity|].
           split; [discriminate|reflexivity].
        -- eapply loop_stands_prepend; [apply drain_output_frames|].
           match goal with
           | |- context [respond_loop p ?v' evs ?w] =>
               exact (IH v' w)
           end.
      * rewrite (respond_select_broken _ _ _ _ _ E).
        exists 1, [], [Send (response_Result (clock (ticks wss))
                               "connection closed unexpectedly")].
        split; [constructor|]. split; [eexists; reflexivity|].
        split; [reflexivity|]. split; [discriminate|reflexivity].
    + rewrite respond_select_time_After.
      eapply loop_stands_prepend;
        [|match goal with
          | |- context [respond_loop p ?v' evs ?w] => exact (IH v' w)
          end].
      destruct (nonempty (stdoutBuf v) || nonempty (stderrBuf v));
        repeat constructor.
Qed.

(** X9. How the life of a Responder ends is decided by the errors its
    two streams report, in the order received, and by nothing else:
    bytes and timeouts never end it, and neither does a first EOF.  It
    ends with the call of [Wait] and the exit frame exactly when the
    first two errors are both EOF, and with "connection closed
    unexpectedly" exactly when the first error, or the one after a
    first EOF, is something else.  Before that tail only output frames
    are sent; the teardown follows the tail and empties the slot, and
    while the Responder runs the slot is untouched. *)
Theorem respond_verdict (p : process) (evs : list event)
    (wss : WebsocketShell) :
  proc wss = Some p ->
  let vd := verdict_of false (errors_in evs) in
  exists body tail : list effect,
    Forall output_frame body /\
    lifecycle_tail p vd tail /\
    emitted (respond evs) wss =
      (Go_pipe (Stdout_of p) :: Go_pipe (Stderr_of p) :: body ++ tail ++
       match vd with
       | still_running => []
       | _ => [Close_chans; Call_Close]
       end)%list /\
    match vd with
    | still_running =>
        (exists v, fst (respond evs wss) = selecting v) /\
        proc (snd (respond evs wss)) = Some p
    | _ =>
        fst (respond evs wss) = returned /\
        proc (snd (respond evs wss)) = None
    end.
Proof.
  intros Hp vd.
  destruct (respond_loop_verdict p evs respond_init
              (after wss 0 [Go_pipe (Stdout_of p); Go_pipe (Stderr_of p)]))
    as (n & body & tail & Hbody & Htail & Hsnd & Hfst).
  change (verdict_of (eof respond_init) (errors_in evs)) with vd in *.
  exists body, tail. split; [exact Hbody|]. split; [exact Htail|].
  rewrite (respond_run p _ _ Hp).
  destruct (respond_loop p respond_init evs _) as [[v|] w] eqn:Hrun;
    cbn [fst snd] in Hsnd, Hfst; subst w.
  - assert (Hvd : vd = still_running).
    { destruct vd; [reflexivity| |];
        destruct Hfst as [_ H]; discriminate H; discriminate. }
    rewrite Hvd in *. cbn [fst snd]. split; [|split; [now eexists|exact Hp]].
    apply emitted_trace.
    rewrite (respond_run p _ _ Hp), Hrun. unfold after. cbn [snd trace].
    rewrite <- !app_assoc, !app_nil_r. reflexivity.
  - assert (Hvd : vd <> still_running) by now apply Hfst.
    cbn [fst snd].
    assert (Hem : emitted (respond evs) wss =
                  (Go_pipe (Stdout_of p) :: Go_pipe (Stderr_of p) ::
                   body ++ tail ++ [Close_chans; Call_Close])%list).
    { apply emitted_trace.
      rewrite (respond_run p _ _ Hp), Hrun. unfold torn_down, after.
      cbn [snd trace]. rewrite <- !app_assoc. reflexivity. }
    destruct vd; [congruence| |]; (split; [exact Hem|split; reflexivity]).
Qed.

(** X10. An error other than [io.EOF] on either stream, a nil error
    included, is fatal at once, whatever the state of the EOF latch:
    the Responder sends "connection closed unexpectedly" and tears
    down.  [Wait] is not called, and what the accumulators hold at that
    moment is not sent. *)
Theorem respond_stream_error (p : process) (wss : WebsocketShell)
    (pre : list event) (s : stream) (e : option error)
    (post : list event) (v : respond_vars) (wss1 : WebsocketShell) :
  proc wss = Some p ->
  respond pre wss = (selecting v, wss1) ->
  is_EOF e = false ->
  respond (pre ++ error_on s e :: post) wss =
    (returned,
     {| proc := None; ticks := S (ticks wss1);
        trace := trace wss1 ++
                 [Send (response_Result (clock (ticks wss1))
                          "connection closed unexpectedly");
                  Close_chans; Call_Close] |}).
Proof.
  intros Hp Hpre He.
  rewrite (respond_run p _ _ Hp) in Hpre.
  destruct (respond_loop p respond_init pre _) as [[v0|] w] eqn:Hloop;
    inversion Hpre; subst v0 w; clear Hpre.
  rewrite (respond_run p _ _ Hp), respond_loop_app, Hloop.
  cbn [respond_loop]. unfold bind.
  rewrite (respond_select_broken _ _ _ _ _ He).
  unfold torn_down, after. cbn [ret proc ticks trace Nat.add].
  rewrite <- ?app_assoc. reflexivity.
Qed.

Lemma no_LF_one_line (buf : string) : no_LF buf = true -> one_line buf = true.
Proof.
  induction buf as [|c buf IH]; [reflexivity|].
  cbn [no_LF one_line]. intro H. apply andb_prop in H as [Hc Hbuf].
  destruct buf; [reflexivity|]. rewrite Hc. now apply IH.
Qed.

Lemma no_LF_snoc_line (buf : string) (m : ascii) :
  no_LF buf = true -> one_line (buf ++ String m "") = true.
Proof.
  induction buf as [|c buf IH]; [reflexivity|].
  cbn [no_LF append one_line]. intro H. apply andb_prop in H as [Hc Hbuf].
  destruct (buf ++ String m "") eqn:E; [reflexivity|].
  rewrite Hc. cbn [andb]. now apply IH.
Qed.

Lemma no_LF_snoc (buf : string) (m : ascii) :
  no_LF buf = true -> Ascii.eqb m LF = false ->
  no_LF (buf ++ String m "") = true.
Proof.
  intros H Hm. induction buf as [|c buf IH]; cbn [append no_LF] in *.
  - now rewrite Hm.
  - apply andb_prop in H as [Hc Hbuf]. rewrite Hc. now apply IH.
Qed.

Lemma nonempty_snoc (buf : string) (m : ascii) :
  nonempty (buf ++ String m "") = true.
Proof. destruct buf; reflexivity. Qed.

Lemma sent_app (a b : list effect) :
  sent (a ++ b) = (sent a ++ sent b)%list.
Proof.
  induction a as [|e a IH]; [reflexivity|].
  destruct e; simpl; congruence.
Qed.

(** The drain of a stream at its EOF sends at most one frame, and that
    frame carries output only when the accumulator holds no line
    feed. *)
Lemma drain_output_only s v wss :
  no_LF (accumulator s v) = true ->
  Forall output_only_frame (drain s v wss).
Proof.
  intro H. unfold drain. destruct (nonempty (accumulator s v)) eqn:En;
    [|constructor].
  constructor; [|constructor]. apply no_LF_one_line in H.
  destruct s; unfold output_only_frame, output_only; cbn in *;
    rewrite En, H; rewrite ?orb_true_r; reflexivity.
Qed.

Lemma loop_output_only_prepend p vd wss n es res :
  Forall output_only_frame es ->
  loop_output_only p vd (after wss n es) res ->
  loop_output_only p vd wss res.
Proof.
  intros Hes (n' & body & tail & Hbody & Htail & Hsnd & Hfst).
  exists (n' + n), (es ++ body)%list, tail.
  split; [now apply Forall_app|]. split; [exact Htail|].
  split; [|exact Hfst].
  rewrite Hsnd, after_after. now rewrite app_assoc.
Qed.

(** From accumulators without a line feed, the loop sends frames that
    carry output and nothing else, until the tail of its verdict. *)
Lemma respond_loop_output_only p evs : forall v wss,
  no_LF (stdoutBuf v) = true ->
  no_LF (stderrBuf v) = true ->
  loop_output_only p (verdict_of (eof v) (errors_in evs)) wss
    (respond_loop p v evs wss).
Proof.
  induction evs as [|ev evs IH]; intros v wss Ho He.
  - exists 0, [], []. cbn. rewrite after_0_nil.
    split; [constructor|]. split; [reflexivity|]. split; [reflexivity|].
    split; [discriminate|congruence].
  - assert (Hacc : forall s, no_LF (accumulator s v) = true)
      by (intros []; assumption).
    cbn [respond_loop]. unfold bind.
    destruct (event_cases ev) as [(s & m & ->)|[(s & e & ->)| ->]].
    + replace (errors_in (byte_on s m :: evs)) with (errors_in evs)
        by (destruct s; reflexivity).
      rewrite respond_select_byte. destruct (Ascii.eqb m LF) eqn:Em.
      * eapply loop_output_only_prepend;
          [|replace (eof v) with (eof (with_accumulator s v ""))
              by (destruct s; reflexivity);
            apply IH; destruct s; cbn; auto].
        constructor; [|constructor].
        pose proof (no_LF_snoc_line _ m (Hacc s)) as H1.
        pose proof (nonempty_snoc (accumulator s v) m) as H2.
        destruct s; unfold output_only_frame, output_only; cbn in *;
          rewrite H1, H2; rewrite ?orb_true_r; reflexivity.
      * replace (eof v)
          with (eof (with_accumulator s v (accumulator s v ++ String m "")))
          by (destruct s; reflexivity).
        pose proof (no_LF_snoc _ m (Hacc s) Em) as H1.
        apply IH; destruct s; cbn in *; auto.
    + replace (errors_in (error_on s e :: evs)) with (e :: errors_in evs)
        by (destruct s; reflexivity).
      cbn [verdict_of]. destruct (is_EOF e) eqn:E.
      * apply is_EOF_true in E. subst e.
        change (error_on s (Some io_EOF)) with (EOF_on s).
        rewrite respond_select_EOF. cbv zeta. destruct (eof v).
        -- rewrite after_after. eexists _, _, _.
           split; [exact (drain_output_only s v wss (Hacc s))|].
           split; [eexists; reflexivity|]. split; [reflexivity|].
           split; [discriminate|reflexivity].
        -- eapply loop_output_only_prepend;
             [exact (drain_output_only s v wss (Hacc s))|].
           match goal with
           | |- context [respond_loop p ?v' evs ?w] =>
               apply (IH v' w); destruct s; cbn; auto
           end.
      * rewrite (respond_select_broken _ _ _ _ _ E).
        exists 1, [], [Send (response_Result (clock (ticks wss))
                               "connection closed unexpectedly")].
        split; [constructor|]. split; [eexists; reflexivity|].
        split; [reflexivity|]. split; [discriminate|reflexivity].
    + rewrite respond_select_time_After.
      eapply loop_output_only_prepend;
        [|match goal with
          | |- context [respond_loop p ?v' evs ?w] =>
              apply (IH v' w); reflexivity
          end].
      apply no_LF_one_line in Ho, He.
      destruct (nonempty (stdoutBuf v)) eqn:Eo;
        destruct (nonempty (stderrBuf v)) eqn:Ee; cbn [orb];
        try constructor; try constructor;
        unfold output_only_frame, output_only;
        cbn [Stdin Stdout Stderr Result];
        rewrite Eo, Ee, Ho, He; reflexivity.
Qed.

(** X11. The frames of a Responder are output frames followed by at
    most one status frame.  Every frame it sends before the tail that
    ends it carries output and nothing else: a non-empty [Stdout] or
    [Stderr], neither [Stdin] nor [Result], and no line feed in a
    payload anywhere but at its end, so a frame never holds more than
    one line of a stream and an empty frame is never sent (a timeout
    that finds both accumulators empty sends nothing).  The only other
    frame is the one of the tail, [Result] alone: the exit status or
    "connection closed unexpectedly". *)
Theorem respond_frames_well_formed (p : process) (evs : list event)
    (wss : WebsocketShell) :
  proc wss = Some p ->
  let vd := verdict_of false (errors_in evs) in
  exists body tail : list effect,
    Forall output_only_frame body /\
    lifecycle_tail p vd tail /\
    emitted (respond evs) wss =
      (Go_pipe (Stdout_of p) :: Go_pipe (Stderr_of p) :: body ++ tail ++
       match vd with
       | still_running => []
       | _ => [Close_chans; Call_Close]
       end)%list /\
    sent (emitted (respond evs) wss) = (sent body ++ sent tail)%list.
Proof.
  intros Hp vd.
  destruct (respond_loop_output_only p evs respond_init
              (after wss 0 [Go_pipe (Stdout_of p); Go_pipe (Stderr_of p)])
              eq_refl eq_refl)
    as (n & body & tail & Hbody & Htail & Hsnd & Hfst).
  change (verdict_of (eof respond_init) (errors_in evs)) with vd in *.
  exists body, tail. split; [exact Hbody|]. split; [exact Htail|].
  assert (Hem : emitted (respond evs) wss =
    (Go_pipe (Stdout_of p) :: Go_pipe (Stderr_of p) :: body ++ tail ++
     match vd with
     | still_running => []
     | _ => [Close_chans; Call_Close]
     end)%list).
  { apply emitted_trace. rewrite (respond_run p _ _ Hp).
    destruct (respond_loop p respond_init evs _) as [[v|] w] eqn:Hrun;
      cbn [fst snd] in Hsnd, Hfst; subst w.
    - assert (Hvd : vd = still_running).
      { destruct vd; [reflexivity| |];
          destruct Hfst as [_ H]; discriminate H; discriminate. }
      rewrite Hvd. unfold after. cbn [snd trace].
      rewrite <- !app_assoc, !app_nil_r. reflexivity.
    - assert (Hvd : vd <> still_running) by now apply Hfst.
      unfold torn_down, after. cbn [snd trace].
      destruct vd; [congruence| |]; rewrite <- !app_assoc; reflexivity. }
  split; [exact Hem|].
  rewrite Hem. cbn [sent]. rewrite !sent_app.
  destruct vd; cbn [sent]; now rewrite ?app_nil_r.
Qed.

(** * The session over a lifecycle *)

Lemma errors_in_app (a b : list event) :
  errors_in (a ++ b) = (errors_in a ++ errors_in b)%list.
Proof.
  induction a as [|ev a IH]; [reflexivity|].
  destruct ev; cbn [app errors_in]; now rewrite ?IH.
Qed.

Lemma errors_in_EOF (s : stream) (evs : list event) :
  errors_in (EOF_on s :: evs) = Some io_EOF :: errors_in evs.
Proof. destruct s; reflexivity. Qed.

(** X12. A session can be used again after a child has exited.  From an
    empty slot, a successful spawn fills it; the Responder of that
    child, once it has received the EOF of one stream and then the EOF
    of the other (with any bytes and timeouts around them), returns and
    empties the slot; and the next successful spawn fills the slot with
    the new child and starts a new Responder.  In between, the trace
    only grows. *)
Theorem session_reuse (req : request) (call : effect) (term : process)
    (a b post : list event) (s : stream) (req2 : request)
    (call2 : effect) (term2 : process) (wss : WebsocketShell) :
  proc wss = None ->
  spawn_success req call term ->
  errors_in a = [] ->
  errors_in b = [] ->
  spawn_success req2 call2 term2 ->
  let evs := (a ++ EOF_on (other s) :: b ++ EOF_on s :: post)%list in
  let w1 := snd (Reader_body req wss) in
  let w2 := snd (respond evs w1) in
  let w3 := snd (Reader_body req2 w2) in
  proc w1 = Some term /\
  fst (respond evs w1) = returned /\
  proc w2 = None /\
  proc w3 = Some term2 /\
  exists body : list effect,
    Forall output_frame body /\
    exists t : Z,
      trace w3 =
        (trace wss ++ [call; Go_respond] ++
         [Go_pipe (Stdout_of term); Go_pipe (Stderr_of term)] ++ body ++
         [Call_Wait; Send (response_Result t (exit_string term));
          Close_chans; Call_Close] ++
         [call2; Go_respond])%list.
Proof.
  intros Hp Hok Ha Hb Hok2 evs w1 w2 w3.
  assert (Hvd : verdict_of false (errors_in evs) = exited).
  { subst evs.
    rewrite errors_in_app, Ha, errors_in_EOF, errors_in_app, Hb,
      errors_in_EOF.
    reflexivity. }
  assert (H1 : Reader_body req wss =
               (tt, {| proc := Some term; ticks := ticks wss;
                       trace := trace wss ++ [call; Go_respond] |}))
    by exact (Reader_body_spawn_run req call term wss Hp Hok).
  assert (Hw1 : proc w1 = Some term) by (subst w1; now rewrite H1).
  destruct (respond_loop_verdict term evs respond_init
              (after w1 0 [Go_pipe (Stdout_of term);
                           Go_pipe (Stderr_of term)]))
    as (n & body & tail & Hbody & Htail & Hsnd & Hfst).
  cbn [eof respond_init] in Htail, Hfst. rewrite Hvd in Htail, Hfst.
  destruct Htail as [t ->].
  assert (Hnone : fst (respond_loop term respond_init evs
                         (after w1 0 [Go_pipe (Stdout_of term);
                                      Go_pipe (Stderr_of term)])) = None)
    by (apply Hfst; discriminate).
  assert (H2 : respond evs w1 =
               (returned,
                torn_down
                  (after w1 (n + 0)
                     ([Go_pipe (Stdout_of term); Go_pipe (Stderr_of term)] ++
                      body ++
                      [Call_Wait;
                       Send (response_Result t (exit_string term))])))).
  { rewrite (respond_run term _ _ Hw1).
    destruct (respond_loop term respond_init evs _) as [[v|] w];
      cbn [fst snd] in Hsnd, Hnone; [discriminate|].
    subst w. now rewrite after_after. }
  assert (Hw2 : proc w2 = None) by (subst w2; now rewrite H2).
  assert (H3 : Reader_body req2 w2 =
               (tt, {| proc := Some term2; ticks := ticks w2;
                       trace := trace w2 ++ [call2; Go_respond] |}))
    by exact (Reader_body_spawn_run req2 call2 term2 w2 Hw2 Hok2).
  split; [exact Hw1|]. split; [now rewrite H2|]. split; [exact Hw2|].
  split; [subst w3; now rewrite H3|].
  exists body. split; [exact Hbody|]. exists t.
  subst w3. rewrite H3. cbn [snd trace]. subst w2. rewrite H2.
  unfold torn_down, after. cbn [snd trace]. subst w1. rewrite H1.
  cbn [snd trace]. rewrite <- !app_assoc. reflexivity.
Qed.

(** * The second EOF and the other accumulator *)

(** C3 (what the code does). Let a child be in the slot and the loop of
    [respond] be running with the EOF latch set.  When the EOF of
    stream [s] arrives, the Responder sends the accumulator of [s] if
    it is not empty, calls [Wait], sends the exit frame (the rendering
    of the error of [Wait], or ["0"]) and tears down, as the claim
    says, and so everything received on [s] has been sent.  But the
    accumulator of the other stream is not looked at: what it holds at
    that moment is never sent.  The output sent for the other stream
    falls short of what was received on it by exactly that
    accumulator, which is not empty when bytes of that stream were
    received after its own EOF. *)
Theorem respond_second_EOF_other_accumulator (p : process)
    (wss : WebsocketShell) (pre : list event) (s : stream)
    (post : list event) (v : respond_vars) (wss1 : WebsocketShell) :
  proc wss = Some p ->
  respond pre wss = (selecting v, wss1) ->
  eof v = true ->
  let flush :=
    if nonempty (accumulator s v)
    then [Send (chunk s (clock (ticks wss1)) (accumulator s v))]
    else [] in
  let exit_frame :=
    response_Result (clock (length flush + ticks wss1))
      (match Wait p with
       | Some e => Sprint e
       | None => "0"
       end) in
  respond (pre ++ EOF_on s :: post) wss =
    (returned,
     {| proc := None;
        ticks := S (length flush + ticks wss1);
        trace := trace wss1 ++ flush ++
                 [Call_Wait; Send exit_frame; Close_chans; Call_Close]
     |}) /\
  output_on s (emitted (respond (pre ++ EOF_on s :: post)) wss) =
    bytes_on s pre /\
  output_on (other s) (emitted (respond (pre ++ EOF_on s :: post)) wss) ++
    accumulator (other s) v = bytes_on (other s) pre.
Proof.
  intros Hp Hpre Heof flush exit_frame.
  rewrite (respond_run p _ _ Hp) in Hpre.
  destruct (respond_loop p respond_init pre _) as [[v0|] w] eqn:Hloop;
    inversion Hpre; subst v0 w; clear Hpre.
  assert (Hfinal :
    respond (pre ++ EOF_on s :: post) wss =
      (returned,
       {| proc := None;
          ticks := S (length flush + ticks wss1);
          trace := trace wss1 ++ flush ++
                   [Call_Wait; Send exit_frame; Close_chans; Call_Close]
       |})).
  { rewrite (respond_run p _ _ Hp), respond_loop_app, Hloop.
    cbn [respond_loop]. unfold bind.
    rewrite respond_select_EOF. cbv zeta. rewrite Heof.
    unfold torn_down, after. cbn [proc ticks trace].
    subst exit_frame flush. unfold drain, exit_string.
    destruct (nonempty (accumulator s v));
      cbn [length Nat.add app ret proc ticks trace];
      rewrite <- ?app_assoc; reflexivity. }
  split; [exact Hfinal|].
  assert (Hflush_s : output_on s flush = accumulator s v).
  { subst flush. destruct (nonempty (accumulator s v)) eqn:En.
    - destruct s; str_norm; reflexivity.
    - apply nonempty_false in En. now rewrite En. }
  assert (Hflush_o : output_on (other s) flush = "").
  { subst flush. destruct (nonempty (accumulator s v));
      [destruct s; reflexivity|reflexivity]. }
  assert (Hsent : forall s' : stream,
    exists out : string,
      output_on s' (emitted (respond (pre ++ EOF_on s :: post)) wss) =
        out ++ output_on s' flush /\
      out ++ accumulator s' v = bytes_on s' pre).
  { intro s'.
    destruct (respond_loop_conserves p s' pre respond_init
                (after wss 0 [Go_pipe (Stdout_of p); Go_pipe (Stderr_of p)]))
      as (n & es & rest & (r & Hrun & Hrest) & Hout).
    rewrite Hloop in Hrun. inversion Hrun; subst r.
    rewrite (Hrest v eq_refl) in Hout.
    replace (accumulator s' respond_init) with "" in Hout
      by (destruct s'; reflexivity).
    cbn [append] in Hout.
    exists (output_on s' es). split; [|exact Hout].
    erewrite emitted_trace
      by (rewrite Hfinal; cbn [snd trace]; subst wss1; unfold after;
          cbn [trace]; rewrite <- !app_assoc; reflexivity).
    cbn [app output_on]. rewrite !output_on_app.
    replace (output_on s' [Call_Wait; Send exit_frame; Close_chans;
                           Call_Close]) with ""
      by (destruct s'; reflexivity).
    now rewrite string_app_nil_r. }
  split.
  - destruct (Hsent s) as (out & -> & Hout). now rewrite Hflush_s.
  - destruct (Hsent (other s)) as (out & -> & Hout).
    now rewrite Hflush_o, string_app_nil_r.
Qed.

End Shell.

(** * Concrete runs *)

(** FORK of [/bin/sh] on a host where the fork fails: the error frame is
    sent, the slot stays empty, and [go wss.respond()] runs all the
    same. *)
Lemma Reader_spawn_failure_starts_respond_witness :
  proc Connect = None /\
  Reader_body wall_clock no_CreateTerminal no_OpenTerminal
    no_CreateCommand (request_of FORK ["/bin/sh"]) Connect =
    (tt, {| proc := None; ticks := 1;
            trace := [Call_CreateTerminal "" "/bin/sh" [] [] "" None None
                        None None;
                      Send (response_Result 1700000000 "unable to fork pty");
                      Go_respond] |}) /\
  respond wall_clock [EOF_on stdout; EOF_on stderr]
    {| proc := None; ticks := 1;
       trace := [Call_CreateTerminal "" "/bin/sh" [] [] "" None None
                   None None;
                 Send (response_Result 1700000000 "unable to fork pty");
                 Go_respond] |} =
    (panicked,
     {| proc := None; ticks := 1;
        trace := [Call_CreateTerminal "" "/bin/sh" [] [] "" None None
                    None None;
                  Send (response_Result 1700000000 "unable to fork pty");
                  Go_respond] |}).
Proof.
  split; [reflexivity|].
  assert (Hfail : spawn_failure no_CreateTerminal no_OpenTerminal
                    no_CreateCommand (request_of FORK ["/bin/sh"])
                    (Call_CreateTerminal "" "/bin/sh" [] [] "" None None
                       None None)
                    "unable to fork pty").
  { apply (fork_failure no_CreateTerminal no_OpenTerminal no_CreateCommand
             (request_of FORK ["/bin/sh"])
             (errorString "fork/exec: no such file or directory"));
      [reflexivity|discriminate|reflexivity]. }
  destruct (Reader_spawn_failure_starts_respond wall_clock
              no_CreateTerminal no_OpenTerminal no_CreateCommand
              (request_of FORK ["/bin/sh"]) _ _ Connect eq_refl Hfail)
    as (Hrun & _ & Hpanic).
  split; [exact Hrun|exact (Hpanic [EOF_on stdout; EOF_on stderr])].
Defined.

(** A prompt without a newline sits in the stdout accumulator when the
    one-second timer fires at 1700000000 or later: the frame goes out
    with [Timestamp] 0. *)
Lemma respond_periodic_flush_Timestamp_witness :
  nonempty "$ " || nonempty "" = true /\
  respond_select wall_clock sh
    {| eof := false; stdoutBuf := "$ "; stderrBuf := "" |} time_After
    (busy sh) =
    (next_iteration {| eof := false; stdoutBuf := ""; stderrBuf := "" |},
     {| proc := Some sh; ticks := 0;
        trace := [Send {| Timestamp := 0; Stdin := ""; Stdout := "$ ";
                          Stderr := ""; Result := "" |}] |}) /\
  (forall k, wall_clock k <> 0%Z).
Proof.
  split; [reflexivity|]. split.
  - exact (proj1 (respond_periodic_flush_Timestamp wall_clock sh
                    {| eof := false; stdoutBuf := "$ "; stderrBuf := "" |}
                    (busy sh) eq_refl)).
  - intro k. unfold wall_clock. lia.
Defined.

(** The child printed [hi] without a newline and was then killed:
    stderr closes first, then stdout.  The second EOF drains [hi], calls
    [Wait] and reports its error; the event behind it is never
    received. *)
Lemma respond_second_EOF_witness :
  proc (busy killed) = Some killed /\
  respond wall_clock [stdoutMsg "h"; stdoutMsg "i"; EOF_on stderr]
    (busy killed) =
    (selecting {| eof := true; stdoutBuf := "hi"; stderrBuf := "" |},
     {| proc := Some killed; ticks := 0;
        trace := [Go_pipe (Some []); Go_pipe (Some [])] |}) /\
  respond wall_clock
    ([stdoutMsg "h"; stdoutMsg "i"; EOF_on stderr] ++
     EOF_on stdout :: [time_After])
    (busy killed) =
    (returned,
     {| proc := None; ticks := 2;
        trace := [Go_pipe (Some []); Go_pipe (Some []);
                  Send (response_Stdout 1700000000 "hi");
                  Call_Wait;
                  Send (response_Result 1700000001 "signal: terminated");
                  Close_chans; Call_Close] |}) /\
  closed_in_order stderr [stdoutMsg "h"; stdoutMsg "i"; EOF_on stderr].
Proof.
  split; [reflexivity|]. split; [reflexivity|]. split.
  - exact (proj1 (proj1 (respond_second_EOF wall_clock killed (busy killed)
                           eq_refl)
                    [stdoutMsg "h"; stdoutMsg "i"; EOF_on stderr] stdout
                    [time_After]
                    {| eof := true; stdoutBuf := "hi"; stderrBuf := "" |}
                    _ eq_refl eq_refl)).
  - exists [stdoutMsg "h"; stdoutMsg "i"], []. split; [reflexivity|].
    intros m [].
Defined.

(** [{Action:"EXEC",Argv:["echo","hi"]}] with a child present: the
    seven bytes [echo hi] are written and echoed. *)
Lemma Reader_busy_EXEC_witness :
  proc (busy sh) = Some sh /\
  Action (request_of EXEC ["echo"; "hi"]) = EXEC /\
  Reader_body wall_clock no_CreateTerminal no_OpenTerminal
    no_CreateCommand (request_of EXEC ["echo"; "hi"]) (busy sh) =
    (tt, {| proc := Some sh; ticks := 1;
            trace := [Call_Write "echo hi";
                      Send (response_Stdin 1700000000 "echo hi")] |}) /\
  Reader_body wall_clock no_CreateTerminal no_OpenTerminal
    no_CreateCommand (request_of EXEC ["echo"; "hi"]) (busy killed) =
    (tt, {| proc := Some killed; ticks := 1;
            trace := [Call_Write "echo hi";
                      Send (response_Result 1700000000
                              "message failed to send")] |}).
Proof.
  split; [reflexivity|]. split; [reflexivity|]. split.
  - exact (proj1 (Reader_busy_EXEC wall_clock no_CreateTerminal
                    no_OpenTerminal no_CreateCommand sh
                    (request_of EXEC ["echo"; "hi"]) (busy sh)
                    eq_refl eq_refl)).
  - exact (proj1 (Reader_busy_EXEC wall_clock no_CreateTerminal
                    no_OpenTerminal no_CreateCommand killed
                    (request_of EXEC ["echo"; "hi"]) (busy killed)
                    eq_refl eq_refl)).
Defined.

(** [{}] on a fresh session, followed by a RESIZE. *)
Lemma Reader_empty_Action_witness :
  Action request_zero = "" /\
  Reader_body wall_clock no_CreateTerminal no_OpenTerminal
    no_CreateCommand request_zero Connect =
    (tt, {| proc := None; ticks := 1;
            trace := [Send (response_Result 1700000000
                              "required field 'Action'")] |}) /\
  Reader wall_clock no_CreateTerminal no_OpenTerminal no_CreateCommand
    [request_zero; request_of RESIZE []] Connect =
    (tt, {| proc := None; ticks := 2;
            trace := [Send (response_Result 1700000000
                              "required field 'Action'");
                      Send (response_Result 1700000001
                              "no running process");
                      ws_Close] |}).
Proof.
  split; [reflexivity|].
  destruct (Reader_empty_Action wall_clock no_CreateTerminal
              no_OpenTerminal no_CreateCommand request_zero
              [request_of RESIZE []] Connect eq_refl)
    as (Hbody & _ & Hloop).
  split; [exact Hbody|]. rewrite Hloop. reflexivity.
Defined.

(** [{Action:"FORK",TermName:"xterm"}] on a fresh session. *)
Lemma Reader_idle_missing_Argv_witness :
  proc Connect = None /\
  (Action (request_of FORK []) = FORK \/ Action (request_of FORK []) = EXEC) /\
  Argv (request_of FORK []) = [] /\
  Reader_body wall_clock no_CreateTerminal no_OpenTerminal
    no_CreateCommand (request_of FORK []) Connect =
    (tt, {| proc := None; ticks := 1;
            trace := [Send (response_Result 1700000000
                              "missing required field 'Argv'")] |}).
Proof.
  split; [reflexivity|]. split; [left; reflexivity|].
  split; [reflexivity|].
  exact (proj1 (Reader_idle_missing_Argv wall_clock no_CreateTerminal
                  no_OpenTerminal no_CreateCommand (request_of FORK [])
                  Connect eq_refl (or_introl eq_refl) eq_refl)).
Defined.

(** [{Action:"RESIZE",TermCols:80,TermRows:24}] on a fresh session. *)
Lemma Reader_idle_no_running_process_witness :
  proc Connect = None /\
  Action resize_request <> "" /\
  Reader_body wall_clock no_CreateTerminal no_OpenTerminal
    no_CreateCommand resize_request Connect =
    (tt, {| proc := None; ticks := 1;
            trace := [Send (response_Result 1700000000
                              "no running process")] |}).
Proof.
  split; [reflexivity|]. split; [discriminate|].
  refine (proj1 (proj2 (Reader_idle_no_running_process wall_clock
                          no_CreateTerminal no_OpenTerminal
                          no_CreateCommand resize_request Connect
                          eq_refl _ _ _)) _); discriminate.
Defined.

(** [{Action:"EXEC"}] with a child present: the empty string is written
    and echoed. *)
Lemma Reader_busy_EXEC_empty_Argv_witness :
  proc (busy sh) = Some sh /\
  Argv (request_of EXEC []) = [] /\
  Stdin_Write sh "" = None /\
  Reader_body wall_clock no_CreateTerminal no_OpenTerminal
    no_CreateCommand (request_of EXEC []) (busy sh) =
    (tt, {| proc := Some sh; ticks := 1;
            trace := [Call_Write "";
                      Send (response_Stdin 1700000000 "")] |}).
Proof.
  split; [reflexivity|]. split; [reflexivity|]. split; [reflexivity|].
  exact (Reader_busy_EXEC_empty_Argv wall_clock no_CreateTerminal
           no_OpenTerminal no_CreateCommand sh (request_of EXEC [])
           (busy sh) eq_refl eq_refl eq_refl eq_refl).
Defined.

(** [{Action:"EXEC",Argv:["/bin/echo","hello"]}] on a fresh session
    whose exec factory succeeds. *)
Lemma Reader_spawn_success_witness :
  proc Connect = None /\
  spawn_success no_CreateTerminal no_OpenTerminal ok_CreateCommand
    (request_of EXEC ["/bin/echo"; "hello"])
    (Call_CreateCommand "/bin/echo" ["hello"]) sh /\
  Reader_body wall_clock no_CreateTerminal no_OpenTerminal ok_CreateCommand
    (request_of EXEC ["/bin/echo"; "hello"]) Connect =
    (tt, {| proc := Some sh; ticks := 0;
            trace := [Call_CreateCommand "/bin/echo" ["hello"];
                      Go_respond] |}).
Proof.
  split; [reflexivity|].
  assert (Hok : spawn_success no_CreateTerminal no_OpenTerminal
                  ok_CreateCommand (request_of EXEC ["/bin/echo"; "hello"])
                  (Call_CreateCommand "/bin/echo" ["hello"]) sh).
  { apply (exec_success no_CreateTerminal no_OpenTerminal ok_CreateCommand
             (request_of EXEC ["/bin/echo"; "hello"]) sh);
      [reflexivity|discriminate|reflexivity]. }
  split; [exact Hok|].
  exact (proj1 (Reader_spawn_success wall_clock no_CreateTerminal
                  no_OpenTerminal ok_CreateCommand
                  (request_of EXEC ["/bin/echo"; "hello"]) _ _ Connect
                  eq_refl Hok)).
Defined.

(** A second spawn, a resize, a signal and some input, all with [sh] in
    the slot. *)
Lemma Reader_keeps_child_witness :
  proc (busy sh) = Some sh /\
  Reader wall_clock no_CreateTerminal no_OpenTerminal ok_CreateCommand
    [request_of EXEC ["/bin/echo"]; resize_request; request_of SIGNAL [];
     request_of EXEC ["ls"]] (busy sh) =
    (tt, {| proc := Some sh; ticks := 2;
            trace := [Call_Write "/bin/echo";
                      Send (response_Stdin 1700000000 "/bin/echo");
                      Call_Resize (Some 80%Z) (Some 24%Z);
                      Call_Kill None;
                      Call_Write "ls";
                      Send (response_Stdin 1700000001 "ls");
                      ws_Close] |}) /\
  proc (snd (Reader wall_clock no_CreateTerminal no_OpenTerminal
               ok_CreateCommand
               [request_of EXEC ["/bin/echo"]; resize_request;
                request_of SIGNAL []; request_of EXEC ["ls"]]
               (busy sh))) = Some sh.
Proof.
  split; [reflexivity|]. split; [reflexivity|].
  exact (proj1 (Reader_keeps_child wall_clock no_CreateTerminal
                  no_OpenTerminal ok_CreateCommand sh
                  [request_of EXEC ["/bin/echo"]; resize_request;
                   request_of SIGNAL []; request_of EXEC ["ls"]]
                  (busy sh) eq_refl)).
Defined.

(** A reader that yields [a], then [b] together with an early EOF, then
    nothing and no error: the EOF that came with [b] is not sent, the
    nil error is, and the last [Read] is never made. *)
Lemma pipe_reads_until_no_byte_witness :
  Forall (fun x => (read_n x > 0)%Z)
    [read_byte "a";
     {| read_n := 1; read_b := "b"%char; read_err := Some io_EOF |}] /\
  (read_n {| read_n := 0; read_b := zero; read_err := None |} <= 0)%Z /\
  pipe (Some [read_byte "a";
              {| read_n := 1; read_b := "b"%char; read_err := Some io_EOF |};
              {| read_n := 0; read_b := zero; read_err := None |};
              read_byte "c"]) =
    [bchan_send "a"; bchan_send "b"; echan_send None].
Proof.
  assert (Hpos : Forall (fun x => (read_n x > 0)%Z)
                   [read_byte "a";
                    {| read_n := 1; read_b := "b"%char;
                       read_err := Some io_EOF |}])
    by (repeat constructor).
  assert (Hr : (read_n {| read_n := 0; read_b := zero; read_err := None |}
                <= 0)%Z)
    by (simpl; lia).
  split; [exact Hpos|]. split; [exact Hr|].
  exact (proj1 (pipe_reads_until_no_byte _ _ [read_byte "c"] Hpos Hr)).
Defined.

(** [hi], a timeout, then [!] with no newline: the frame [hi] has gone
    out and [!] waits in the accumulator. *)
Lemma respond_output_prefix_witness :
  proc (busy hello) = Some hello /\
  exists rest : string,
    output_on stdout
      (emitted (respond wall_clock
                  [stdoutMsg "h"; stdoutMsg "i"; time_After; stdoutMsg "!"])
         (busy hello)) ++ rest = "hi!" /\
    forall v,
      fst (respond wall_clock
             [stdoutMsg "h"; stdoutMsg "i"; time_After; stdoutMsg "!"]
             (busy hello)) = selecting v ->
      rest = accumulator stdout v.
Proof.
  split; [reflexivity|].
  exact (respond_output_prefix wall_clock hello stdout
           [stdoutMsg "h"; stdoutMsg "i"; time_After; stdoutMsg "!"]
           (busy hello) eq_refl).
Defined.

(** The lifecycle of [hello]: the EOF of the nil stderr arrives first,
    a timeout falls between [h] and [i]. *)
Lemma respond_in_order_lifecycle_witness :
  proc (busy hello) = Some hello /\
  pipe (Stdout_of hello) =
    (bytes_sends (String "h" (String "i" (String LF ""))) ++
     [echan_send (Some io_EOF)])%list /\
  pipe (Stderr_of hello) =
    (bytes_sends "" ++ [echan_send (Some io_EOF)])%list /\
  respond wall_clock
    [EOF_on stderr; stdoutMsg "h"; time_After; stdoutMsg "i";
     stdoutMsg LF; EOF_on stdout; time_After] (busy hello) =
    (returned,
     {| proc := None; ticks := 2;
        trace := [Go_pipe (Stdout_of hello); Go_pipe None;
                  Send {| Timestamp := 0; Stdin := ""; Stdout := "h";
                          Stderr := ""; Result := "" |};
                  Send (response_Stdout 1700000000
                          (String "i" (String LF "")));
                  Call_Wait;
                  Send (response_Result 1700000001 "0");
                  Close_chans; Call_Close] |}) /\
  exists (n : nat) (body : list effect) (t : Z),
    respond wall_clock
      [EOF_on stderr; stdoutMsg "h"; time_After; stdoutMsg "i";
       stdoutMsg LF; EOF_on stdout; time_After] (busy hello) =
      (returned,
       {| proc := None; ticks := n;
          trace := trace (busy hello) ++
                   Go_pipe (Stdout_of hello) :: Go_pipe (Stderr_of hello) ::
                   body ++
                   [Call_Wait; Send (response_Result t (exit_string hello));
                    Close_chans; Call_Close] |}) /\
    Forall output_frame body /\
    output_on stdout body = String "h" (String "i" (String LF "")) /\
    output_on stderr body = "".
Proof.
  split; [reflexivity|]. split; [reflexivity|]. split; [reflexivity|].
  split; [reflexivity|].
  exact (respond_in_order_lifecycle wall_clock hello
           (String "h" (String "i" (String LF ""))) ""
           [EOF_on stderr; stdoutMsg "h"; time_After; stdoutMsg "i";
            stdoutMsg LF; EOF_on stdout; time_After]
           (busy hello) eq_refl eq_refl eq_refl eq_refl eq_refl).
Defined.

(** An EOF, bytes, then a broken stream: the verdict is [broken]. *)
Lemma respond_verdict_witness :
  proc (busy killed) = Some killed /\
  verdict_of false
    (errors_in [EOF_on stderr; stdoutMsg "x";
                stdoutErr (Some (errorString "read |0: file already closed"));
                EOF_on stdout]) = broken /\
  respond wall_clock
    [EOF_on stderr; stdoutMsg "x";
     stdoutErr (Some (errorString "read |0: file already closed"));
     EOF_on stdout] (busy killed) =
    (returned,
     {| proc := None; ticks := 1;
        trace := [Go_pipe (Some []); Go_pipe (Some []);
                  Send (response_Result 1700000000
                          "connection closed unexpectedly");
                  Close_chans; Call_Close] |}) /\
  exists body tail : list effect,
    Forall output_frame body /\
    lifecycle_tail killed broken tail /\
    emitted (respond wall_clock
               [EOF_on stderr; stdoutMsg "x";
                stdoutErr (Some (errorString "read |0: file already closed"));
                EOF_on stdout]) (busy killed) =
      (Go_pipe (Stdout_of killed) :: Go_pipe (Stderr_of killed) ::
       body ++ tail ++ [Close_chans; Call_Close])%list /\
    fst (respond wall_clock
           [EOF_on stderr; stdoutMsg "x";
            stdoutErr (Some (errorString "read |0: file already closed"));
            EOF_on stdout] (busy killed)) = returned /\
    proc (snd (respond wall_clock
                 [EOF_on stderr; stdoutMsg "x";
                  stdoutErr
                    (Some (errorString "read |0: file already closed"));
                  EOF_on stdout] (busy killed))) = None.
Proof.
  split; [reflexivity|]. split; [reflexivity|]. split; [reflexivity|].
  exact (respond_verdict wall_clock killed
           [EOF_on stderr; stdoutMsg "x";
            stdoutErr (Some (errorString "read |0: file already closed"));
            EOF_on stdout] (busy killed) eq_refl).
Defined.

(** A [Read] that returns no byte and a nil error, while [x] waits in
    the accumulator: the session is reported broken and [x] is lost. *)
Lemma respond_stream_error_witness :
  proc (busy sh) = Some sh /\
  respond wall_clock [stdoutMsg "x"] (busy sh) =
    (selecting {| eof := false; stdoutBuf := "x"; stderrBuf := "" |},
     {| proc := Some sh; ticks := 0;
        trace := [Go_pipe (Some []); Go_pipe None] |}) /\
  is_EOF None = false /\
  respond wall_clock ([stdoutMsg "x"] ++ error_on stdout None :: [])
    (busy sh) =
    (returned,
     {| proc := None; ticks := 1;
        trace := [Go_pipe (Some []); Go_pipe None;
                  Send (response_Result 1700000000
                          "connection closed unexpectedly");
                  Close_chans; Call_Close] |}).
Proof.
  split; [reflexivity|]. split; [reflexivity|]. split; [reflexivity|].
  exact (respond_stream_error wall_clock sh (busy sh) [stdoutMsg "x"]
           stdout None []
           {| eof := false; stdoutBuf := "x"; stderrBuf := "" |} _
           eq_refl eq_refl eq_refl).
Defined.

(** The frames of the lifecycle of [hello]: two output frames, then the
    exit frame. *)
Lemma respond_frames_well_formed_witness :
  proc (busy hello) = Some hello /\
  sent (emitted (respond wall_clock
                   [EOF_on stderr; stdoutMsg "h"; time_After; time_After;
                    stdoutMsg "i"; stdoutMsg LF; EOF_on stdout])
          (busy hello)) =
    [{| Timestamp := 0; Stdin := ""; Stdout := "h"; Stderr := "";
        Result := "" |};
     response_Stdout 1700000000 (String "i" (String LF ""));
     response_Result 1700000001 "0"] /\
  exists body tail : list effect,
    Forall output_only_frame body /\
    lifecycle_tail hello exited tail /\
    emitted (respond wall_clock
               [EOF_on stderr; stdoutMsg "h"; time_After; time_After;
                stdoutMsg "i"; stdoutMsg LF; EOF_on stdout])
      (busy hello) =
      (Go_pipe (Stdout_of hello) :: Go_pipe (Stderr_of hello) ::
       body ++ tail ++ [Close_chans; Call_Close])%list /\
    sent (emitted (respond wall_clock
                     [EOF_on stderr; stdoutMsg "h"; time_After; time_After;
                      stdoutMsg "i"; stdoutMsg LF; EOF_on stdout])
            (busy hello)) = (sent body ++ sent tail)%list.
Proof.
  split; [reflexivity|]. split; [reflexivity|].
  exact (respond_frames_well_formed wall_clock hello
           [EOF_on stderr; stdoutMsg "h"; time_After; time_After;
            stdoutMsg "i"; stdoutMsg LF; EOF_on stdout]
           (busy hello) eq_refl).
Defined.

(** [/bin/echo hello] twice on one session: the second command is
    accepted after the first has exited. *)
Lemma session_reuse_witness :
  proc Connect = None /\
  spawn_success no_CreateTerminal no_OpenTerminal ok_CreateCommand
    (request_of EXEC ["/bin/echo"; "hello"])
    (Call_CreateCommand "/bin/echo" ["hello"]) sh /\
  errors_in [] = [] /\
  errors_in [time_After] = [] /\
  snd (Reader_body wall_clock no_CreateTerminal no_OpenTerminal
         ok_CreateCommand (request_of EXEC ["/bin/echo"; "hello"])
         (snd (respond wall_clock
                 [EOF_on stderr; time_After; EOF_on stdout]
                 (snd (Reader_body wall_clock no_CreateTerminal
                         no_OpenTerminal ok_CreateCommand
                         (request_of EXEC ["/bin/echo"; "hello"])
                         Connect))))) =
    {| proc := Some sh; ticks := 1;
       trace := [Call_CreateCommand "/bin/echo" ["hello"]; Go_respond;
                 Go_pipe (Some []); Go_pipe None;
                 Call_Wait; Send (response_Result 1700000000 "0");
                 Close_chans; Call_Close;
                 Call_CreateCommand "/bin/echo" ["hello"]; Go_respond] |} /\
  proc (snd (respond wall_clock
               ([] ++ EOF_on (other stdout) :: [time_After] ++
                EOF_on stdout :: [])
               (snd (Reader_body wall_clock no_CreateTerminal
                       no_OpenTerminal ok_CreateCommand
                       (request_of EXEC ["/bin/echo"; "hello"])
                       Connect)))) = None.
Proof.
  assert (Hok : spawn_success no_CreateTerminal no_OpenTerminal
                  ok_CreateCommand (request_of EXEC ["/bin/echo"; "hello"])
                  (Call_CreateCommand "/bin/echo" ["hello"]) sh).
  { apply (exec_success no_CreateTerminal no_OpenTerminal ok_CreateCommand
             (request_of EXEC ["/bin/echo"; "hello"]) sh);
      [reflexivity|discriminate|reflexivity]. }
  split; [reflexivity|]. split; [exact Hok|].
  split; [reflexivity|]. split; [reflexivity|].
  split; [reflexivity|].
  exact (proj1 (proj2 (proj2
           (session_reuse wall_clock no_CreateTerminal no_OpenTerminal
              ok_CreateCommand (request_of EXEC ["/bin/echo"; "hello"]) _ sh
              [] [time_After] [] stdout
              (request_of EXEC ["/bin/echo"; "hello"]) _ sh Connect
              eq_refl Hok eq_refl eq_refl Hok)))).
Defined.

(** The child wrote [hi] without a newline and closed stdout; the EOF
    of stdout is received between [h] and [i], then the EOF of stderr.
    [h] is sent at the first EOF; [i] is in the accumulator of stdout
    when the second EOF ends the Responder, and is never sent. *)
Lemma respond_second_EOF_other_accumulator_witness :
  proc (busy sh) = Some sh /\
  respond wall_clock [stdoutMsg "h"; EOF_on stdout; stdoutMsg "i"]
    (busy sh) =
    (selecting {| eof := true; stdoutBuf := "i"; stderrBuf := "" |},
     {| proc := Some sh; ticks := 1;
        trace := [Go_pipe (Some []); Go_pipe None;
                  Send (response_Stdout 1700000000 "h")] |}) /\
  respond wall_clock
    ([stdoutMsg "h"; EOF_on stdout; stdoutMsg "i"] ++ EOF_on stderr :: [])
    (busy sh) =
    (returned,
     {| proc := None; ticks := 2;
        trace := [Go_pipe (Some []); Go_pipe None;
                  Send (response_Stdout 1700000000 "h");
                  Call_Wait;
                  Send (response_Result 1700000001 "0");
                  Close_chans; Call_Close] |}) /\
  bytes_on stdout [stdoutMsg "h"; EOF_on stdout; stdoutMsg "i"] = "hi" /\
  output_on stdout
    (emitted (respond wall_clock
                ([stdoutMsg "h"; EOF_on stdout; stdoutMsg "i"] ++
                 EOF_on stderr :: []))
       (busy sh)) = "h" /\
  output_on stdout
    (emitted (respond wall_clock
                ([stdoutMsg "h"; EOF_on stdout; stdoutMsg "i"] ++
                 EOF_on stderr :: []))
       (busy sh)) ++ "i" = "hi".
Proof.
  split; [reflexivity|]. split; [reflexivity|].
  destruct (respond_second_EOF_other_accumulator wall_clock sh (busy sh)
              [stdoutMsg "h"; EOF_on stdout; stdoutMsg "i"] stderr []
              {| eof := true; stdoutBuf := "i"; stderrBuf := "" |} _
              eq_refl eq_refl eq_refl)
    as (Hrun & _ & Hlost).
  split; [exact Hrun|]. split; [reflexivity|]. split; [reflexivity|].
  exact Hlost.
Defined.
